(** * bmt-lite: the Toolkit index and its hierarchy and mapping queries

    A shallow embedding of [bmt_lite/__init__.py].  The class [Toolkit]
    builds, once, a few dictionaries from the parsed biolink model and then
    answers queries over them.  Python dictionaries keep insertion order and
    that order is observable (it is the order of [children] and of
    [descendents]), so a dictionary is an association list with unique keys.

    Typing.  The source annotates element names as [str], parents as
    [Optional[str]] and the result of [get_all_by_mapping] as [Set[str]];
    the index therefore holds strings, and [None] for a missing [is_a].
    The *argument* of a query is an arbitrary Python value: the test
    [test_inputs] calls every method on [None], [3], ["invalid"] and [0.25].

    Exceptions.  A query can raise [TypeError] (the [lru_cache] wrapper
    hashes its argument), [RecursionError] (the recursive methods, on a
    cyclic [is_a] relation) and [IndexError] (a subscript on an empty list).
    The recursion depth available to a recursive method is the [fuel]
    argument of its model. *)

From Stdlib Require Import List String Ascii ZArith Bool Arith Lia Permutation.
Import ListNotations.
Set Warnings "-register-all".
Local Open Scope string_scope.
Local Open Scope list_scope.

(** ** Python values and exceptions *)

Inductive pyval : Type :=
| VNone
| VBool (b : bool)
| VInt (z : Z)
| VFloat (mantissa exponent : Z)      (* mantissa * 2 ^ exponent *)
| VStr (s : string)
| VList (l : list pyval).             (* unhashable *)

Definition hashable (v : pyval) : bool :=
  match v with
  | VList _ => false
  | _ => true
  end.

(** A string-keyed dictionary is only hit by a [str] argument. *)
Definition as_str (v : pyval) : option string :=
  match v with
  | VStr s => Some s
  | _ => None
  end.

(** The children dictionaries are keyed by parents: a string or [None]. *)
Definition as_parent (v : pyval) : option (option string) :=
  match v with
  | VNone => Some None
  | VStr s => Some (Some s)
  | _ => None
  end.

Definition of_parent (p : option string) : pyval :=
  match p with
  | None => VNone
  | Some s => VStr s
  end.

Inductive exn : Type := TypeError | RecursionError | IndexError.

Inductive res (A : Type) : Type :=
| Ok (a : A)
| Raise (e : exn).
Arguments Ok {A} a.
Arguments Raise {A} e.

Definition bind {A B : Type} (r : res A) (k : A -> res B) : res B :=
  match r with
  | Ok a => k a
  | Raise e => Raise e
  end.

Notation "x <- r ;; k" := (bind r (fun x => k))
  (at level 61, r at next level, right associativity).

(** [@lru_cache()]: the argument is hashed to build the cache key before the
    body runs.  The index is never mutated after construction, so a cached
    result is the result the body would compute again. *)
Definition lru_cache {A : Type} (body : pyval -> res A) (arg : pyval) : res A :=
  if hashable arg then body arg else Raise TypeError.

(** ** Dictionaries *)

Section Dict.
Context {K V : Type}.
Variable eqb : K -> K -> bool.

Definition dict : Type := list (K * V).

Definition keys (d : dict) : list K := map fst d.

(** [d.get(k)] *)
Fixpoint dict_get (k : K) (d : dict) : option V :=
  match d with
  | [] => None
  | (k', v) :: d' => if eqb k k' then Some v else dict_get k d'
  end.

(** [d[k] = v]: an existing key keeps its position. *)
Fixpoint dict_set (k : K) (v : V) (d : dict) : dict :=
  match d with
  | [] => [(k, v)]
  | (k', v') :: d' =>
      if eqb k k' then (k', v) :: d' else (k', v') :: dict_set k v d'
  end.

(** [{**a, **b}] *)
Definition dict_merge (a b : dict) : dict :=
  fold_left (fun d kv => dict_set (fst kv) (snd kv) d) b a.
End Dict.

Arguments dict K V : clear implicits.

Definition parent_eqb (p q : option string) : bool :=
  match p, q with
  | None, None => true
  | Some s, Some t => String.eqb s t
  | _, _ => false
  end.

(** [x in l] for a list of strings *)
Definition str_in (s : string) (l : list string) : bool :=
  existsb (String.eqb s) l.
Arguments str_in : simpl never.

(** [v in l] for an arbitrary value [v] *)
Definition py_in (v : pyval) (l : list string) : bool :=
  match as_str v with
  | Some s => str_in s l
  | None => false
  end.

(** ** The parsed model *)

(** The properties of an element that the toolkit reads; [description]
    stands for the properties it passes through. *)
Record element : Type := mk_element {
  is_a : option string;
  in_subset : list string;
  mappings : list string;
  description : string
}.

(** [yaml.load(...)], restricted to the two keys that [__init__] reads. *)
Record model : Type := mk_model {
  model_slots : dict string element;
  model_classes : dict string element
}.

(** ** Toolkit.__init__ *)

(** [defaultdict(list)]: [d[parent].append(child)] *)
Fixpoint append_child (p : option string) (child : string)
    (d : dict (option string) (list string)) : dict (option string) (list string) :=
  match d with
  | [] => [(p, [child])]
  | (p', l) :: d' =>
      if parent_eqb p p' then (p', l ++ [child]) :: d'
      else (p', l) :: append_child p child d'
  end.

(** [{key: [value.get("is_a", None)] for key, value in d.items()}] *)
Definition parents_of (d : dict string element) : dict string (list (option string)) :=
  map (fun kv => (fst kv, [is_a (snd kv)])) d.

(** [for child, parents in ps.items(): for parent in parents: ...] *)
Definition children_of (ps : dict string (list (option string)))
    : dict (option string) (list string) :=
  fold_left
    (fun d cp => fold_left (fun d p => append_child p (fst cp) d) (snd cp) d)
    ps [].

Record Toolkit : Type := mk_Toolkit {
  slots : dict string element;
  classes : dict string element;
  elements : dict string element;
  slot_parents : dict string (list (option string));
  slot_children : dict (option string) (list string);
  class_parents : dict string (list (option string));
  class_children : dict (option string) (list string);
  _children : dict (option string) (list string);
  _parents : dict string (list (option string))
}.

Definition __init__ (m : model) : Toolkit :=
  let slots := model_slots m in
  let classes := model_classes m in
  let slot_parents := parents_of slots in
  let slot_children := children_of slot_parents in
  let class_parents := parents_of classes in
  let class_children := children_of class_parents in
  {| slots := slots;
     classes := classes;
     elements := dict_merge String.eqb slots classes;
     slot_parents := slot_parents;
     slot_children := slot_children;
     class_parents := class_parents;
     class_children := class_children;
     _children := dict_merge parent_eqb slot_children class_children;
     _parents := dict_merge String.eqb slot_parents class_parents |}.

(** ** Queries *)

(** [names] takes no argument besides [self]. *)
Definition names (tk : Toolkit) : list string :=
  keys (classes tk) ++ keys (slots tk).

(** [d.get(k, [])] *)
Definition get_or_empty (k : option string) (d : dict (option string) (list string))
    : list string :=
  match dict_get parent_eqb k d with
  | Some l => l
  | None => []
  end.

Definition children (tk : Toolkit) : pyval -> res (list string) :=
  lru_cache (fun name =>
    match as_parent name with
    | Some k => Ok (get_or_empty k (_children tk))
    | None => Ok []
    end).

Definition parent (tk : Toolkit) : pyval -> res (option string) :=
  lru_cache (fun name =>
    match as_str name with
    | Some k =>
        match dict_get String.eqb k (_parents tk) with
        | None => Ok None                       (* except KeyError *)
        | Some [] => Raise IndexError           (* parents[0] *)
        | Some (p :: _) => Ok p
        end
    | None => Ok None
    end).

(** The recursive methods: a call at depth [0] is the one that exceeds the
    interpreter's recursion limit. *)
Fixpoint ancestors (fuel : nat) (tk : Toolkit) (name : pyval) {struct fuel}
    : res (list string) :=
  lru_cache (fun name =>
    match fuel with
    | O => Raise RecursionError
    | S fuel' =>
        p <- parent tk name ;;
        match p with
        | None => Ok []
        | Some p => a <- ancestors fuel' tk (VStr p) ;; Ok (p :: a)
        end
    end) name.

Fixpoint descendents (fuel : nat) (tk : Toolkit) (name : pyval) {struct fuel}
    : res (list string) :=
  lru_cache (fun name =>
    match fuel with
    | O => Raise RecursionError
    | S fuel' =>
        cs <- children tk name ;;
        fold_left
          (fun c child =>
             c <- c ;;
             d <- descendents fuel' tk (VStr child) ;;
             Ok ((c ++ [child]) ++ d))
          cs (Ok [])
    end) name.

Definition get_element (tk : Toolkit) : pyval -> res (option element) :=
  lru_cache (fun name =>
    match as_str name with
    | Some k => Ok (dict_get String.eqb k (elements tk))
    | None => Ok None
    end).

Definition is_edgelabel (tk : Toolkit) : pyval -> res bool :=
  lru_cache (fun name =>
    element <- get_element tk name ;;
    match element with
    | None => Ok false
    | Some e => Ok (str_in "translator_minimal" (in_subset e))
    end).

Definition is_category (fuel : nat) (tk : Toolkit) : pyval -> res bool :=
  lru_cache (fun name =>
    match as_str name with
    | Some "named thing" => Ok true
    | _ => a <- ancestors fuel tk name ;; Ok (str_in "named thing" a)
    end).

(** The set is represented by the list of its members in the order in
    which the loop adds them; the keys of [elements] are distinct, so the
    list has no repetition. *)
Definition get_all_by_mapping (tk : Toolkit) : pyval -> res (list string) :=
  lru_cache (fun uriorcurie =>
    Ok (keys (filter (fun kv => py_in uriorcurie (mappings (snd kv)))
                     (elements tk)))).

(** The [for mapping in mappings[1:]] loop and the final subscript. *)
Fixpoint shared_loop (fuel : nat) (tk : Toolkit) (rest shared_ancestors : list string)
    : res (option string) :=
  match rest with
  | [] =>
      match shared_ancestors with
      | [] => Raise IndexError
      | first :: _ => Ok (Some first)
      end
  | mapping :: rest' =>
      a <- ancestors fuel tk (VStr mapping) ;;
      let ancestors_ := mapping :: a in
      let shared_ancestors :=
        filter (fun shared_ancestor => str_in shared_ancestor ancestors_)
               shared_ancestors in
      match shared_ancestors with
      | [] => Ok None
      | _ :: _ => shared_loop fuel tk rest' shared_ancestors
      end
  end.

(** [list(s)] enumerates a set in an order fixed by the interpreter (the
    hash values of the members); [set_order] is that enumeration, and the
    statements below only assume that it is a permutation of the members. *)
Definition get_by_mapping (fuel : nat) (set_order : list string -> list string)
    (tk : Toolkit) : pyval -> res (option string) :=
  lru_cache (fun uriorcurie =>
    s <- get_all_by_mapping tk uriorcurie ;;
    match set_order s with
    | [] => Ok None
    | first :: rest =>
        a <- ancestors fuel tk (VStr first) ;;
        let shared_ancestors := first :: a in
        match shared_ancestors with
        | [] => Ok None
        | _ :: _ => shared_loop fuel tk rest shared_ancestors
        end
    end).

(** ** Notions used in the statements *)

(** The names of [d], in order, whose [is_a] is [p]. *)
Definition with_parent (p : option string) (d : dict string element) : list string :=
  keys (filter (fun kv => parent_eqb p (is_a (snd kv))) d).

(** A parsed YAML mapping has each key once. *)
Definition wf_model (m : model) : Prop :=
  NoDup (keys (model_slots m)) /\ NoDup (keys (model_classes m)).

(** [ancestor tk a n]: [a] is reached from [n] by one or more [parent] steps. *)
Inductive ancestor (tk : Toolkit) : string -> string -> Prop :=
| ancestor_parent (n p : string) :
    parent tk (VStr n) = Ok (Some p) -> ancestor tk p n
| ancestor_step (n p a : string) :
    parent tk (VStr n) = Ok (Some p) -> ancestor tk a p -> ancestor tk a n.

(** No element is its own ancestor. *)
Definition acyclic (tk : Toolkit) : Prop := forall n, ~ ancestor tk n n.

(** What the merged tables hold for a name: the entry of the classes if
    there is one, else the entry of the slots. *)
Definition merged_entry (m : model) (n : string) : option element :=
  match dict_get String.eqb n (model_classes m) with
  | Some e => Some e
  | None => dict_get String.eqb n (model_slots m)
  end.

(** [[m] + ancestors(m)] for each [m] of a list, in order. *)
Fixpoint chains_of (fuel : nat) (tk : Toolkit) (ms : list string)
    : res (list (list string)) :=
  match ms with
  | [] => Ok []
  | m :: ms' =>
      a <- ancestors fuel tk (VStr m) ;;
      cs <- chains_of fuel tk ms' ;;
      Ok ((m :: a) :: cs)
  end.

(** [x] occurs in every chain. *)
Definition commonb (chains : list (list string)) (x : string) : bool :=
  forallb (str_in x) chains.

(** [x] is an ancestor-or-self of every member of [ms]. *)
Definition common (fuel : nat) (tk : Toolkit) (ms : list string) (x : string) : Prop :=
  forall m, In m ms ->
    exists a, ancestors fuel tk (VStr m) = Ok a /\ (x = m \/ In x a).

(** The argument of a query hits nothing in the table that the query
    reads: it is no key of [_parents], of [elements] or of [_children], or
    no element lists it in its [mappings].  A value that is not a string
    is no key of the tables keyed by names. *)
Definition no_parents_key (tk : Toolkit) (v : pyval) : Prop :=
  forall n, as_str v = Some n -> dict_get String.eqb n (_parents tk) = None.

Definition no_elements_key (tk : Toolkit) (v : pyval) : Prop :=
  forall n, as_str v = Some n -> dict_get String.eqb n (elements tk) = None.

Definition no_children_key (tk : Toolkit) (v : pyval) : Prop :=
  forall k, as_parent v = Some k -> dict_get parent_eqb k (_children tk) = None.

Definition in_no_mappings (tk : Toolkit) (v : pyval) : Prop :=
  forall kv, In kv (elements tk) -> py_in v (mappings (snd kv)) = false.

(** The argument is not the literal that [is_category] compares with. *)
Definition not_the_literal (v : pyval) : Prop :=
  as_str v <> Some "named thing".

(** ** Concrete models *)

Definition entry (parent : option string) (subsets maps : list string) : element :=
  {| is_a := parent; in_subset := subsets; mappings := maps; description := "" |}.

(** Modelled from the spec: [tests/data/toy_model.yml], the model that
    [tests/test_basics.py] loads, is not among the sources.  The hierarchy
    and the mappings are those of the spec's concrete scenario and of the
    diagram and the assertions of [test_mapping]; the identifiers carry the
    [biolink:] prefix that the test uses. *)
Definition toy_model : model :=
  {| model_slots :=
       [ ("related to", entry None [] []);
         ("affects",
          entry (Some "related to") []
                ["biolink:probe1"; "biolink:probe2"; "biolink:probe4"]);
         ("regulates", entry (Some "affects") [] []);
         ("regulates, process to process",
          entry (Some "regulates") [] ["biolink:probe3"; "biolink:probe4"]);
         ("negatively regulates, process to process",
          entry (Some "regulates, process to process") []
                ["biolink:probe2"; "biolink:probe3"; "biolink:probe4"]);
         ("regulates, entity to entity",
          entry (Some "regulates") [] ["biolink:probe3"; "biolink:probe4"]);
         ("positively regulates, entity to entity",
          entry (Some "regulates, entity to entity") []
                ["biolink:probe3"; "biolink:probe4"]);
         ("negatively regulates, entity to entity",
          entry (Some "regulates, entity to entity") [] []);
         ("contributes to", entry (Some "related to") [] []);
         ("causes",
          entry (Some "contributes to") ["translator_minimal"]
                ["RO:0002410"; "SEMMEDDB:CAUSES"; "WD:P1542"]) ];
     model_classes :=
       [ ("named thing", entry None [] []);
         ("gene", entry (Some "named thing") [] []) ] |}.

Definition toy : Toolkit := __init__ toy_model.

(** One root in each category. *)
Definition two_roots : model :=
  {| model_slots := [ ("related to", entry None [] []) ];
     model_classes := [ ("named thing", entry None [] []) ] |}.

(** A slot and a class with the same parent. *)
Definition shared_parent : model :=
  {| model_slots := [ ("x", entry None [] []); ("s", entry (Some "x") [] []) ];
     model_classes := [ ("c", entry (Some "x") [] []) ] |}.

(** One name in both categories, with different parents. *)
Definition collision : model :=
  {| model_slots :=
       [ ("a", entry None [] []); ("n", entry (Some "a") ["slot"] []) ];
     model_classes :=
       [ ("b", entry None [] []); ("n", entry (Some "b") ["class"] []) ] |}.

(** An [is_a] that names no element. *)
Definition dangling : model :=
  {| model_slots := [ ("s", entry (Some "ghost") [] []) ];
     model_classes := [] |}.

(** The depth of a name: the length of its chain, [0] without one. *)
Definition depth (fuel : nat) (tk : Toolkit) (n : string) : nat :=
  match ancestors fuel tk (VStr n) with
  | Ok l => List.length l
  | Raise _ => 0
  end.

(** Two slots that name each other as parent. *)
Definition cyclic : model :=
  {| model_slots :=
       [ ("a", entry (Some "b") [] ["id:loop"]); ("b", entry (Some "a") [] []) ];
     model_classes := [] |}.

(** No name is defined both as a slot and as a class. *)
Definition disjoint_names (m : model) : Prop :=
  forall n, dict_get String.eqb n (model_slots m) = None
            \/ dict_get String.eqb n (model_classes m) = None.

(** * Properties *)

(** ** Dictionaries *)

Section DictFacts.
Context {K V : Type}.
Variable eqb : K -> K -> bool.
Hypothesis eqb_eq : forall x y, eqb x y = true <-> x = y.

Lemma eqb_refl' (x : K) : eqb x x = true.
Proof. now apply eqb_eq. Qed.

Lemma dict_get_None (k : K) (d : dict K V) :
  dict_get eqb k d = None <-> ~ In k (keys d).
Proof.
  induction d as [|[k' v] d IH]; simpl.
  - tauto.
  - destruct (eqb k k') eqn:E.
    + apply eqb_eq in E. subst. split; [discriminate | intros H; exfalso; auto].
    + rewrite IH. split; [intros H [H1|H1]; auto | tauto].
      subst. rewrite eqb_refl' in E. discriminate.
Qed.

Lemma dict_get_In (k : K) (v : V) (d : dict K V) :
  dict_get eqb k d = Some v -> In (k, v) d.
Proof.
  induction d as [|[k' v'] d IH]; simpl; [discriminate|].
  destruct (eqb k k') eqn:E.
  - apply eqb_eq in E. intros [= ->]. subst. now left.
  - auto.
Qed.

Lemma In_dict_get (k : K) (v : V) (d : dict K V) :
  NoDup (keys d) -> In (k, v) d -> dict_get eqb k d = Some v.
Proof.
  induction d as [|[k' v'] d IH]; simpl; [tauto|].
  intros Hnd [H|H]; inversion Hnd; subst.
  - injection H as -> ->. now rewrite eqb_refl'.
  - destruct (eqb k k') eqn:E; [|auto].
    apply eqb_eq in E. subst. exfalso. apply H2.
    change k' with (fst (k', v)). now apply in_map.
Qed.

Lemma dict_get_set (k k' : K) (v : V) (d : dict K V) :
  dict_get eqb k (dict_set eqb k' v d)
  = if eqb k k' then Some v else dict_get eqb k d.
Proof.
  induction d as [|[k0 v0] d IH]; simpl.
  - reflexivity.
  - destruct (eqb k' k0) eqn:E0; simpl.
    + apply eqb_eq in E0. subst. destruct (eqb k k0); reflexivity.
    + rewrite IH. destruct (eqb k k0) eqn:E1, (eqb k k') eqn:E2; try reflexivity.
      apply eqb_eq in E1, E2. subst. rewrite eqb_refl' in E0. discriminate.
Qed.

Lemma dict_get_merge (k : K) (a b : dict K V) :
  NoDup (keys b) ->
  dict_get eqb k (dict_merge eqb a b)
  = match dict_get eqb k b with
    | Some v => Some v
    | None => dict_get eqb k a
    end.
Proof.
  unfold dict_merge. revert a.
  induction b as [|[k0 v0] b IH]; intros a Hnd; simpl.
  - reflexivity.
  - inversion Hnd; subst. rewrite IH by assumption.
    rewrite dict_get_set.
    destruct (eqb k k0) eqn:E.
    + apply eqb_eq in E. subst.
      apply dict_get_None in H1. now rewrite H1.
    + reflexivity.
Qed.
End DictFacts.

Lemma parent_eqb_eq (p q : option string) : parent_eqb p q = true <-> p = q.
Proof.
  destruct p, q; simpl; try (split; congruence).
  rewrite String.eqb_eq. split; congruence.
Qed.

Lemma str_in_In (s : string) (l : list string) : str_in s l = true <-> In s l.
Proof.
  unfold str_in. rewrite existsb_exists. split.
  - intros (x & Hx & E). apply String.eqb_eq in E. now subst.
  - intros H. exists s. split; [assumption | apply String.eqb_refl].
Qed.

(** ** The children index *)

Lemma get_append_child (p q : option string) (c : string) d :
  get_or_empty p (append_child q c d)
  = if parent_eqb p q then get_or_empty p d ++ [c] else get_or_empty p d.
Proof.
  unfold get_or_empty.
  induction d as [|[p' l] d IH]; simpl.
  - destruct (parent_eqb p q); reflexivity.
  - destruct (parent_eqb q p') eqn:Eq; simpl.
    + apply parent_eqb_eq in Eq. subst.
      destruct (parent_eqb p p'); reflexivity.
    + destruct (parent_eqb p p') eqn:Ep.
      * apply parent_eqb_eq in Ep. subst.
        destruct (parent_eqb p' q) eqn:E; [|reflexivity].
        apply parent_eqb_eq in E. subst.
        rewrite (proj2 (parent_eqb_eq q q) eq_refl) in Eq. discriminate.
      * apply IH.
Qed.

Lemma In_keys_append_child (k q : option string) (c : string) d :
  In k (keys (append_child q c d)) <-> k = q \/ In k (keys d).
Proof.
  induction d as [|[p' l] d IH]; simpl.
  - intuition auto.
  - destruct (parent_eqb q p') eqn:Eq; simpl.
    + apply parent_eqb_eq in Eq. subst. intuition auto.
    + rewrite IH. intuition auto.
Qed.

Lemma NoDup_append_child (q : option string) (c : string) d :
  NoDup (keys d) -> NoDup (keys (append_child q c d)).
Proof.
  induction d as [|[p' l] d IH]; simpl; intros Hnd.
  - constructor; [intros [] | constructor].
  - inversion Hnd; subst.
    destruct (parent_eqb q p') eqn:Eq; simpl.
    + assumption.
    + constructor; [|auto].
      rewrite In_keys_append_child. intros [->|H]; [|auto].
      rewrite (proj2 (parent_eqb_eq q q) eq_refl) in Eq. discriminate.
Qed.

Lemma nonempty_append_child (q : option string) (c : string) d :
  Forall (fun kv => snd kv <> []) d ->
  Forall (fun kv => snd kv <> []) (append_child q c d).
Proof.
  induction d as [|[p' l] d IH]; simpl; intros H.
  - constructor; [simpl; discriminate | constructor].
  - inversion H; subst.
    destruct (parent_eqb q p'); constructor; simpl; auto.
    destruct l; discriminate.
Qed.

(** The nested loops of [__init__] over a [parents_of] table: one
    [append_child] per element. *)
Lemma children_of_parents_of (d : dict string element) acc :
  fold_left
    (fun d cp => fold_left (fun d p => append_child p (fst cp) d) (snd cp) d)
    (parents_of d) acc
  = fold_left (fun acc kv => append_child (is_a (snd kv)) (fst kv) acc) d acc.
Proof.
  revert acc. induction d as [|kv d IH]; intros acc; simpl; [reflexivity|].
  apply IH.
Qed.

Lemma get_children_fold (p : option string) (d : dict string element) acc :
  get_or_empty p
    (fold_left (fun acc kv => append_child (is_a (snd kv)) (fst kv) acc) d acc)
  = get_or_empty p acc ++ with_parent p d.
Proof.
  unfold with_parent.
  revert acc. induction d as [|[k e] d IH]; intros acc; simpl.
  - now rewrite app_nil_r.
  - rewrite IH, get_append_child.
    destruct (parent_eqb p (is_a e)); simpl.
    + now rewrite <- app_assoc.
    + reflexivity.
Qed.

Lemma children_fold_inv (d : dict string element) acc :
  NoDup (keys acc) /\ Forall (fun kv => snd kv <> []) acc ->
  let r := fold_left (fun acc kv => append_child (is_a (snd kv)) (fst kv) acc) d acc in
  NoDup (keys r) /\ Forall (fun kv => snd kv <> []) r.
Proof.
  revert acc. induction d as [|[k e] d IH]; intros acc [H1 H2]; simpl.
  - auto.
  - apply IH. split; [now apply NoDup_append_child | now apply nonempty_append_child].
Qed.

Lemma get_children_of (p : option string) (d : dict string element) :
  get_or_empty p (children_of (parents_of d)) = with_parent p d.
Proof.
  unfold children_of. now rewrite children_of_parents_of, get_children_fold.
Qed.

Lemma children_of_inv (d : dict string element) :
  NoDup (keys (children_of (parents_of d)))
  /\ Forall (fun kv => snd kv <> []) (children_of (parents_of d)).
Proof.
  unfold children_of. rewrite children_of_parents_of.
  apply children_fold_inv. split; constructor.
Qed.

(** [_children]: the group of the classes wherever the classes have one,
    the group of the slots elsewhere. *)
Lemma get_children_init (m : model) (p : option string) :
  get_or_empty p (_children (__init__ m))
  = match with_parent p (model_classes m) with
    | [] => with_parent p (model_slots m)
    | c :: cs => c :: cs
    end.
Proof.
  simpl. unfold get_or_empty at 1.
  destruct (children_of_inv (model_classes m)) as [Hnd Hne].
  rewrite (dict_get_merge parent_eqb parent_eqb_eq) by assumption.
  rewrite <- (get_children_of p (model_classes m)).
  rewrite <- (get_children_of p (model_slots m)).
  unfold get_or_empty.
  destruct (dict_get parent_eqb p (children_of (parents_of (model_classes m)))) as [l|] eqn:E.
  - apply (dict_get_In parent_eqb parent_eqb_eq) in E.
    rewrite Forall_forall in Hne. specialize (Hne _ E). simpl in Hne.
    destruct l; [congruence | reflexivity].
  - reflexivity.
Qed.

Lemma children_init (m : model) (v : pyval) (p : option string) :
  as_parent v = Some p ->
  children (__init__ m) v
  = Ok match with_parent p (model_classes m) with
       | [] => with_parent p (model_slots m)
       | c :: cs => c :: cs
       end.
Proof.
  intros H. unfold children, lru_cache.
  destruct v; simpl in H; try discriminate; injection H as <-; simpl hashable; cbv iota;
    unfold as_parent; now rewrite get_children_init.
Qed.

Lemma In_with_parent (c : string) (p : option string) (d : dict string element) :
  In c (with_parent p d) <-> exists e, In (c, e) d /\ is_a e = p.
Proof.
  unfold with_parent, keys. rewrite in_map_iff. split.
  - intros ([k e] & <- & H). apply filter_In in H. destruct H as [H1 H2].
    simpl in *. apply parent_eqb_eq in H2. eauto.
  - intros (e & H1 & H2). exists (c, e). split; [reflexivity|].
    apply filter_In. split; [assumption|]. simpl. now apply parent_eqb_eq.
Qed.

(** ** The parent and element tables *)

Lemma keys_parents_of (d : dict string element) : keys (parents_of d) = keys d.
Proof. unfold parents_of, keys. rewrite map_map. reflexivity. Qed.

Lemma dict_get_parents_of (n : string) (d : dict string element) :
  dict_get String.eqb n (parents_of d)
  = option_map (fun e => [is_a e]) (dict_get String.eqb n d).
Proof.
  induction d as [|[k e] d IH]; simpl; [reflexivity|].
  destruct (String.eqb n k); [reflexivity | apply IH].
Qed.

Lemma get_element_init (m : model) (n : string) :
  wf_model m ->
  get_element (__init__ m) (VStr n) = Ok (merged_entry m n).
Proof.
  intros [_ Hc]. unfold get_element, lru_cache, merged_entry. simpl.
  now rewrite (dict_get_merge String.eqb String.eqb_eq).
Qed.

Lemma parent_init (m : model) (n : string) :
  wf_model m ->
  parent (__init__ m) (VStr n)
  = Ok match merged_entry m n with
       | Some e => is_a e
       | None => None
       end.
Proof.
  intros [_ Hc]. unfold parent, lru_cache, merged_entry. simpl.
  rewrite (dict_get_merge String.eqb String.eqb_eq)
    by now rewrite keys_parents_of.
  rewrite !dict_get_parents_of.
  destruct (dict_get String.eqb n (model_classes m)); simpl; [reflexivity|].
  destruct (dict_get String.eqb n (model_slots m)); reflexivity.
Qed.

Lemma parent_not_str (tk : Toolkit) (v : pyval) :
  hashable v = true -> as_str v = None -> parent tk v = Ok None.
Proof. intros H1 H2. unfold parent, lru_cache. now rewrite H1, H2. Qed.

(** ** The ancestor chain *)

Lemma ancestors_inv (fuel : nat) (tk : Toolkit) (v : pyval) (l : list string) :
  ancestors fuel tk v = Ok l ->
  exists fuel', fuel = S fuel' /\ hashable v = true /\
    ((parent tk v = Ok None /\ l = [])
     \/ exists p l', parent tk v = Ok (Some p)
                     /\ ancestors fuel' tk (VStr p) = Ok l' /\ l = p :: l').
Proof.
  destruct fuel as [|fuel']; simpl; unfold lru_cache;
    (destruct (hashable v); [|discriminate]); [discriminate|].
  intros H. exists fuel'. split; [reflexivity|]. split; [reflexivity|].
  destruct (parent tk v) as [[p|]|e]; simpl in H; try discriminate.
  - right. destruct (ancestors fuel' tk (VStr p)) as [l'|e] eqn:E; simpl in H;
      [|discriminate].
    injection H as <-. eauto.
  - left. injection H as <-. auto.
Qed.

Lemma ancestors_O (tk : Toolkit) (v : pyval) (l : list string) :
  ancestors 0 tk v <> Ok l.
Proof. simpl. unfold lru_cache. destruct (hashable v); discriminate. Qed.

Lemma ancestors_root (fuel : nat) (tk : Toolkit) (v : pyval) :
  hashable v = true -> parent tk v = Ok None -> ancestors (S fuel) tk v = Ok [].
Proof. intros H1 H2. simpl. unfold lru_cache. now rewrite H1, H2. Qed.

Lemma ancestors_cons (fuel : nat) (tk : Toolkit) (v : pyval) (p : string) l :
  hashable v = true -> parent tk v = Ok (Some p) ->
  ancestors fuel tk (VStr p) = Ok l -> ancestors (S fuel) tk v = Ok (p :: l).
Proof. intros H1 H2 H3. simpl. unfold lru_cache. now rewrite H1, H2; simpl; rewrite H3. Qed.

(** A larger recursion depth does not change a result. *)
Lemma ancestors_mono (fuel fuel' : nat) (tk : Toolkit) (v : pyval) l :
  ancestors fuel tk v = Ok l -> fuel <= fuel' -> ancestors fuel' tk v = Ok l.
Proof.
  revert fuel' v l. induction fuel as [|fuel IH]; intros fuel' v l H Hle.
  - now apply ancestors_O in H.
  - apply ancestors_inv in H.
    destruct H as (f & [= <-] & Hh & [[Hp ->] | (p & l' & Hp & Ha & ->)]);
      destruct fuel' as [|fuel']; try lia.
    + now apply ancestors_root.
    + apply ancestors_cons; auto. apply IH; [assumption | lia].
Qed.

Lemma ancestors_det (f1 f2 : nat) (tk : Toolkit) (v : pyval) l1 l2 :
  ancestors f1 tk v = Ok l1 -> ancestors f2 tk v = Ok l2 -> l1 = l2.
Proof.
  intros H1 H2.
  apply ancestors_mono with (fuel' := Nat.max f1 f2) in H1; [|lia].
  apply ancestors_mono with (fuel' := Nat.max f1 f2) in H2; [|lia].
  congruence.
Qed.

(** The chain of a member of a chain is the rest of that chain. *)
Lemma ancestors_suffix (fuel : nat) (tk : Toolkit) (v : pyval) l (x : string) :
  ancestors fuel tk v = Ok l -> In x l ->
  exists pre lx, l = pre ++ x :: lx /\ ancestors fuel tk (VStr x) = Ok lx.
Proof.
  revert v l. induction fuel as [|fuel IH]; intros v l H Hin;
    [now apply ancestors_O in H|].
  apply ancestors_inv in H.
  destruct H as (f & [= <-] & Hh & [[Hp ->] | (p & l' & Hp & Ha & ->)]).
  - destruct Hin.
  - destruct Hin as [->|Hin].
    + exists [], l'. split; [reflexivity|].
      apply ancestors_mono with fuel; [assumption | lia].
    + destruct (IH _ _ Ha Hin) as (pre & lx & -> & Hx).
      exists (p :: pre), lx. split; [reflexivity|].
      apply ancestors_mono with fuel; [assumption | lia].
Qed.

(** Members of the chain are ancestors in the sense of [ancestor]. *)
Lemma ancestors_ancestor (fuel : nat) (tk : Toolkit) (n : string) l (x : string) :
  ancestors fuel tk (VStr n) = Ok l -> In x l -> ancestor tk x n.
Proof.
  revert n l. induction fuel as [|fuel IH]; intros n l H Hin;
    [now apply ancestors_O in H|].
  apply ancestors_inv in H.
  destruct H as (f & [= <-] & Hh & [[Hp ->] | (p & l' & Hp & Ha & ->)]).
  - destruct Hin.
  - destruct Hin as [->|Hin].
    + now apply ancestor_parent.
    + eapply ancestor_step; eauto.
Qed.

Lemma ancestor_trans (tk : Toolkit) (a b c : string) :
  ancestor tk a b -> ancestor tk b c -> ancestor tk a c.
Proof.
  intros Hab Hbc. induction Hbc.
  - eapply ancestor_step; eauto.
  - eapply ancestor_step; eauto.
Qed.

Lemma ancestors_split (fuel : nat) (tk : Toolkit) (v : pyval) pre (x : string) post :
  ancestors fuel tk v = Ok (pre ++ x :: post) ->
  ancestors fuel tk (VStr x) = Ok post.
Proof.
  revert fuel v. induction pre as [|y pre IH]; intros fuel v H;
    apply ancestors_inv in H;
    destruct H as (f & -> & Hh & [[Hp E] | (p & l' & Hp & Ha & E)]);
    try discriminate; simpl in E; injection E as <- <-.
  - apply ancestors_mono with f; [assumption | lia].
  - apply ancestors_mono with f; [eauto | lia].
Qed.

Lemma parent_key (tk : Toolkit) (n p : string) :
  parent tk (VStr n) = Ok (Some p) -> In n (keys (_parents tk)).
Proof.
  unfold parent, lru_cache. simpl.
  destruct (dict_get String.eqb n (_parents tk)) eqn:E; [|discriminate].
  intros _. apply (dict_get_In String.eqb String.eqb_eq) in E.
  change n with (fst (n, l)). now apply in_map.
Qed.

(** When the recursion depth runs out, that many distinct keys of
    [_parents] lie on the path walked. *)
Lemma ancestors_path (m : model) (fuel : nat) (n : string) :
  wf_model m -> acyclic (__init__ m) ->
  (exists l, ancestors fuel (__init__ m) (VStr n) = Ok l)
  \/ (exists path, List.length path = fuel /\ NoDup path
                   /\ incl path (keys (_parents (__init__ m)))
                   /\ forall x, In x path -> x = n \/ ancestor (__init__ m) x n).
Proof.
  intros Hwf Hac. revert n. induction fuel as [|fuel IH]; intros n.
  - right. exists []. repeat split; [constructor | intros x [] | intros x []].
  - pose proof (parent_init m n Hwf) as Hp.
    destruct (match merged_entry m n with Some e => is_a e | None => None end)
      as [p|].
    + destruct (IH p) as [[l Hl] | (path & Hlen & Hnd & Hincl & Hanc)].
      * left. exists (p :: l). now apply ancestors_cons.
      * right. exists (n :: path).
        assert (Hup : forall x, In x path -> ancestor (__init__ m) x n).
        { intros x Hx. destruct (Hanc x Hx) as [->|H].
          - now apply ancestor_parent.
          - eapply ancestor_step; eauto. }
        split; [simpl; congruence|]. split; [|split].
        -- constructor; [|assumption]. intros Hin. exact (Hac n (Hup n Hin)).
        -- intros x [<-|Hx]; [eapply parent_key; eauto | auto].
        -- intros x [<-|Hx]; auto.
    + left. exists []. now apply ancestors_root.
Qed.

(** On an acyclic model a recursion depth above the number of elements
    is enough for [ancestors] to return. *)
Lemma ancestors_total (m : model) (fuel : nat) (n : string) :
  wf_model m -> acyclic (__init__ m) ->
  List.length (_parents (__init__ m)) < fuel ->
  exists l, ancestors fuel (__init__ m) (VStr n) = Ok l.
Proof.
  intros Hwf Hac Hlt.
  destruct (ancestors_path m fuel n Hwf Hac)
    as [H | (path & Hlen & Hnd & Hincl & _)]; [assumption|].
  apply NoDup_incl_length in Hincl; [|assumption].
  unfold keys in Hincl. rewrite length_map in Hincl. lia.
Qed.

(** ** The intersection loop *)

Lemma shared_loop_sound (fuel : nat) (tk : Toolkit) rest sh (r : string) :
  shared_loop fuel tk rest sh = Ok (Some r) ->
  In r sh /\ common fuel tk rest r.
Proof.
  revert sh. induction rest as [|m rest IH]; intros sh; simpl.
  - destruct sh as [|first sh]; [discriminate|].
    intros [= ->]. split; [now left | intros m []].
  - destruct (ancestors fuel tk (VStr m)) as [a|e] eqn:Ea; simpl; [|discriminate].
    destruct (filter _ sh) as [|y sh'] eqn:Ef; [discriminate|].
    intros H. apply IH in H. destruct H as [Hin Hc].
    rewrite <- Ef in Hin. apply filter_In in Hin. destruct Hin as [Hin Hs].
    split; [assumption|].
    intros m' [<-|Hm']; [|auto].
    exists a. split; [assumption|]. apply str_in_In in Hs. destruct Hs; auto.
Qed.

Lemma chains_of_common (fuel : nat) (tk : Toolkit) ms chains (x : string) :
  chains_of fuel tk ms = Ok chains ->
  commonb chains x = true <-> common fuel tk ms x.
Proof.
  revert chains. induction ms as [|m ms IH]; intros chains; simpl.
  - intros [= <-]. simpl. split; [intros _ m [] | reflexivity].
  - destruct (ancestors fuel tk (VStr m)) as [a|e] eqn:Ea; simpl; [|discriminate].
    destruct (chains_of fuel tk ms) as [cs|e] eqn:Ec; simpl; [|discriminate].
    intros [= <-]. simpl. rewrite andb_true_iff, (IH cs eq_refl).
    rewrite str_in_In. split.
    + intros [H1 H2] m' [<-|Hm']; [|auto].
      exists a. split; [assumption|]. destruct H1; auto.
    + intros H. split.
      * destruct (H m (or_introl eq_refl)) as (a' & Ha' & Hx).
        assert (a' = a) by congruence. subst. destruct Hx; [left | right]; auto.
      * intros m' Hm'. apply H. now right.
Qed.

(** With every chain available, the loop computes the first member of the
    running list that all the chains share. *)
Lemma shared_loop_filter (fuel : nat) (tk : Toolkit) rest chains sh :
  chains_of fuel tk rest = Ok chains -> sh <> [] ->
  shared_loop fuel tk rest sh = Ok (hd_error (filter (commonb chains) sh)).
Proof.
  revert chains sh. induction rest as [|m rest IH]; intros chains sh; simpl.
  - intros [= <-] Hne. unfold commonb. simpl.
    destruct sh as [|first sh]; [congruence | reflexivity].
  - destruct (ancestors fuel tk (VStr m)) as [a|e] eqn:Ea; simpl; [|discriminate].
    destruct (chains_of fuel tk rest) as [cs|e] eqn:Ec; simpl; [|discriminate].
    intros [= <-] Hne.
    assert (Hf : filter (commonb ((m :: a) :: cs)) sh
                 = filter (commonb cs) (filter (fun x => str_in x (m :: a)) sh)).
    { clear. induction sh as [|y sh IHs]; simpl; [reflexivity|].
      destruct (str_in y (m :: a)); simpl; [|assumption].
      fold (commonb cs y). destruct (commonb cs y); now rewrite IHs. }
    rewrite Hf.
    destruct (filter (fun x => str_in x (m :: a)) sh) as [|y sh'] eqn:Ef.
    + reflexivity.
    + apply IH; [reflexivity | discriminate].
Qed.

Lemma hd_filter_Some {A : Type} (f : A -> bool) (l : list A) (y : A) :
  hd_error (filter f l) = Some y ->
  exists pre post, l = pre ++ y :: post /\ f y = true
                   /\ forall z, In z pre -> f z = false.
Proof.
  induction l as [|x l IH]; simpl; [discriminate|].
  destruct (f x) eqn:E; simpl.
  - intros [= ->]. exists [], l. split; [reflexivity|]. split; [assumption|].
    intros z [].
  - intros H. destruct (IH H) as (pre & post & -> & Hy & Hpre).
    exists (x :: pre), post. split; [reflexivity|]. split; [assumption|].
    intros z [<-|Hz]; auto.
Qed.

Lemma hd_filter_None {A : Type} (f : A -> bool) (l : list A) :
  hd_error (filter f l) = None -> forall z, In z l -> f z = false.
Proof.
  induction l as [|x l IH]; simpl; [intros _ z []|].
  destruct (f x) eqn:E; simpl; [discriminate|].
  intros H z [<-|Hz]; auto.
Qed.

Lemma chain_split (fuel : nat) (tk : Toolkit) (m : string) a pre (y : string) post :
  ancestors fuel tk (VStr m) = Ok a -> m :: a = pre ++ y :: post ->
  ancestors fuel tk (VStr y) = Ok post.
Proof.
  intros Ha E. destruct pre as [|x pre]; simpl in E; injection E as <- ->.
  - assumption.
  - eapply ancestors_split; eauto.
Qed.

Lemma common_in_chain (fuel : nat) (tk : Toolkit) ms (x m : string) a :
  common fuel tk ms x -> In m ms -> ancestors fuel tk (VStr m) = Ok a ->
  In x (m :: a).
Proof.
  intros Hc Hm Ha. destruct (Hc m Hm) as (a' & Ha' & Hx).
  assert (a' = a) by congruence. subst. destruct Hx; [left | right]; auto.
Qed.

(** The first common member is the same in the chain of any two members:
    the common members of a chain form its tail from that member on, and
    two chains that are tails of each other are equal. *)
Lemma first_common_unique (fuel : nat) (tk : Toolkit) ms (f : string -> bool)
    (m1 m2 : string) a1 a2 :
  (forall x, f x = true <-> common fuel tk ms x) ->
  In m1 ms -> In m2 ms ->
  ancestors fuel tk (VStr m1) = Ok a1 -> ancestors fuel tk (VStr m2) = Ok a2 ->
  hd_error (filter f (m1 :: a1)) = hd_error (filter f (m2 :: a2)).
Proof.
  intros Hf H1 H2 Ha1 Ha2.
  destruct (hd_error (filter f (m1 :: a1))) as [y1|] eqn:E1,
           (hd_error (filter f (m2 :: a2))) as [y2|] eqn:E2.
  - f_equal.
    destruct (hd_filter_Some _ _ _ E1) as (pre1 & post1 & S1 & Hy1 & Hp1).
    destruct (hd_filter_Some _ _ _ E2) as (pre2 & post2 & S2 & Hy2 & Hp2).
    pose proof (chain_split _ _ _ _ _ _ _ Ha1 S1) as C1.
    pose proof (chain_split _ _ _ _ _ _ _ Ha2 S2) as C2.
    assert (I12 : In y1 (m2 :: a2))
      by (eapply common_in_chain; eauto; now apply Hf).
    assert (I21 : In y2 (m1 :: a1))
      by (eapply common_in_chain; eauto; now apply Hf).
    rewrite S2 in I12. rewrite S1 in I21.
    apply in_app_or in I12, I21.
    destruct I12 as [I12|[I12|I12]];
      [apply Hp2 in I12; congruence | congruence |].
    destruct I21 as [I21|[I21|I21]];
      [apply Hp1 in I21; congruence | congruence |].
    destruct (ancestors_suffix _ _ _ _ _ C2 I12) as (p & l1 & -> & D1).
    destruct (ancestors_suffix _ _ _ _ _ C1 I21) as (q & l2 & -> & D2).
    pose proof (ancestors_det _ _ _ _ _ _ D1 C1) as L1.
    pose proof (ancestors_det _ _ _ _ _ _ D2 C2) as L2.
    apply (f_equal (@List.length string)) in L1, L2.
    rewrite !length_app in L1, L2. simpl in L1, L2. lia.
  - destruct (hd_filter_Some _ _ _ E1) as (pre1 & post1 & S1 & Hy1 & Hp1).
    assert (I12 : In y1 (m2 :: a2))
      by (eapply common_in_chain; eauto; now apply Hf).
    apply (hd_filter_None _ _ E2) in I12. congruence.
  - destruct (hd_filter_Some _ _ _ E2) as (pre2 & post2 & S2 & Hy2 & Hp2).
    assert (I21 : In y2 (m1 :: a1))
      by (eapply common_in_chain; eauto; now apply Hf).
    apply (hd_filter_None _ _ E1) in I21. congruence.
  - reflexivity.
Qed.

Lemma chains_of_total (fuel : nat) (tk : Toolkit) ms :
  (forall m, In m ms -> exists a, ancestors fuel tk (VStr m) = Ok a) ->
  exists cs, chains_of fuel tk ms = Ok cs.
Proof.
  induction ms as [|m ms IH]; intros H; simpl.
  - eauto.
  - destruct (H m (or_introl eq_refl)) as [a ->]. simpl.
    destruct IH as [cs ->]; [intros; apply H; now right|]. simpl. eauto.
Qed.

Lemma common_perm (fuel : nat) (tk : Toolkit) ms ms' (x : string) :
  Permutation ms ms' -> common fuel tk ms x <-> common fuel tk ms' x.
Proof.
  intros Hp. unfold common. split; intros H m Hm; apply H.
  - eapply Permutation_in; [apply Permutation_sym|]; eauto.
  - eapply Permutation_in; eauto.
Qed.

(** [get_by_mapping] on a string, once the chains of all the matched
    elements are available. *)
Lemma get_by_mapping_filter (fuel : nat) set_order (tk : Toolkit) (u : string)
    s (first : string) rest a cs :
  get_all_by_mapping tk (VStr u) = Ok s ->
  set_order s = first :: rest ->
  ancestors fuel tk (VStr first) = Ok a ->
  chains_of fuel tk rest = Ok cs ->
  get_by_mapping fuel set_order tk (VStr u)
  = Ok (hd_error (filter (commonb ((first :: a) :: cs)) (first :: a))).
Proof.
  intros Hs Ho Ha Hc.
  assert (E : filter (commonb ((first :: a) :: cs)) (first :: a)
              = filter (commonb cs) (first :: a)).
  { apply filter_ext_in. intros x Hx. unfold commonb. simpl forallb.
    now rewrite (proj2 (str_in_In x (first :: a)) Hx). }
  rewrite E. clear E.
  unfold get_by_mapping, lru_cache. simpl hashable. cbv iota.
  rewrite Hs. unfold bind at 1. rewrite Ho, Ha. unfold bind at 1.
  now rewrite (shared_loop_filter _ _ _ _ _ Hc) by discriminate.
Qed.

Lemma get_by_mapping_empty (fuel : nat) set_order (tk : Toolkit) (u : pyval) :
  (forall s, Permutation (set_order s) s) ->
  get_all_by_mapping tk u = Ok [] ->
  get_by_mapping fuel set_order tk u = Ok None.
Proof.
  intros Hp Hs. unfold get_by_mapping, lru_cache.
  destruct (hashable u) eqn:Hh.
  - rewrite Hs. simpl.
    rewrite (Permutation_nil (Permutation_sym (Hp []))). reflexivity.
  - unfold get_all_by_mapping, lru_cache in Hs. rewrite Hh in Hs. discriminate.
Qed.

Lemma as_str_Some (v : pyval) (n : string) : as_str v = Some n -> v = VStr n.
Proof. destruct v; simpl; congruence. Qed.

Lemma get_all_by_mapping_str (tk : Toolkit) (u : string) :
  exists s, get_all_by_mapping tk (VStr u) = Ok s.
Proof. unfold get_all_by_mapping, lru_cache. simpl. eauto. Qed.

(** With the chain of every matched element available, [get_by_mapping]
    returns: nothing on an empty set, else the first member of the first
    chain that all the chains share. *)
Lemma get_by_mapping_result (fuel : nat) set_order (tk : Toolkit) (u : string) s :
  get_all_by_mapping tk (VStr u) = Ok s ->
  (forall m, In m s -> exists a, ancestors fuel tk (VStr m) = Ok a) ->
  (forall l, Permutation (set_order l) l) ->
  (s = [] /\ get_by_mapping fuel set_order tk (VStr u) = Ok None)
  \/ exists first rest a cs,
       set_order s = first :: rest
       /\ ancestors fuel tk (VStr first) = Ok a
       /\ chains_of fuel tk (first :: rest) = Ok ((first :: a) :: cs)
       /\ get_by_mapping fuel set_order tk (VStr u)
          = Ok (hd_error (filter (commonb ((first :: a) :: cs)) (first :: a))).
Proof.
  intros Hs Hall Hp.
  destruct (set_order s) as [|first rest] eqn:Ho.
  - left. assert (s = []) as ->.
    { apply Permutation_nil. rewrite <- Ho. apply Hp. }
    split; [reflexivity | now apply get_by_mapping_empty].
  - right.
    assert (Hin : forall m, In m (first :: rest) -> In m s).
    { intros m Hm. apply Permutation_in with (set_order s); [apply Hp|].
      now rewrite Ho. }
    destruct (Hall first (Hin _ (or_introl eq_refl))) as [a Ha].
    destruct (chains_of_total fuel tk rest) as [cs Hc].
    { intros m' Hm'. apply Hall, Hin. now right. }
    exists first, rest, a, cs. split; [reflexivity|]. split; [assumption|].
    split; [simpl; now rewrite Ha, Hc|].
    eapply get_by_mapping_filter; eauto.
Qed.

(** With the chain of every matched element available, two enumeration
    orders of the set give the same result. *)
Lemma get_by_mapping_same_result (fuel : nat) order1 order2 (tk : Toolkit)
    (u : string) s :
  get_all_by_mapping tk (VStr u) = Ok s ->
  (forall m, In m s -> exists a, ancestors fuel tk (VStr m) = Ok a) ->
  (forall l, Permutation (order1 l) l) ->
  (forall l, Permutation (order2 l) l) ->
  exists r, get_by_mapping fuel order1 tk (VStr u) = Ok r
            /\ get_by_mapping fuel order2 tk (VStr u) = Ok r.
Proof.
  intros Hs Hall Hp1 Hp2.
  destruct (get_by_mapping_result fuel order1 tk u s Hs Hall Hp1)
    as [[-> Hr1] | (m1 & rest1 & a1 & cs1 & Ho1 & Ha1 & Hc1 & Hr1)].
  - exists None. split; [assumption|]. now apply get_by_mapping_empty.
  - destruct (get_by_mapping_result fuel order2 tk u s Hs Hall Hp2)
      as [[-> Hr2] | (m2 & rest2 & a2 & cs2 & Ho2 & Ha2 & Hc2 & Hr2)].
    + pose proof (Permutation_nil (Permutation_sym (Hp1 []))) as E.
      congruence.
    + exists (hd_error (filter (commonb ((m1 :: a1) :: cs1)) (m1 :: a1))).
      split; [assumption|]. rewrite Hr2. f_equal.
      assert (Hf1 : forall x, commonb ((m1 :: a1) :: cs1) x = true
                              <-> common fuel tk s x).
      { intros x. rewrite (chains_of_common _ _ _ _ x Hc1).
        apply common_perm. rewrite <- Ho1. apply Hp1. }
      assert (Hf2 : forall x, commonb ((m2 :: a2) :: cs2) x = true
                              <-> common fuel tk s x).
      { intros x. rewrite (chains_of_common _ _ _ _ x Hc2).
        apply common_perm. rewrite <- Ho2. apply Hp2. }
      assert (E : filter (commonb ((m2 :: a2) :: cs2)) (m2 :: a2)
                  = filter (commonb ((m1 :: a1) :: cs1)) (m2 :: a2)).
      { apply filter_ext. intros x.
        destruct (commonb ((m1 :: a1) :: cs1) x) eqn:E1.
        - apply Hf2, Hf1, E1.
        - destruct (commonb ((m2 :: a2) :: cs2) x) eqn:E2; [|reflexivity].
          apply Hf2, Hf1 in E2. congruence. }
      rewrite E. symmetry.
      apply first_common_unique with (fuel := fuel) (tk := tk) (ms := s); auto.
      * apply Permutation_in with (order1 s); [apply Hp1|]. rewrite Ho1. now left.
      * apply Permutation_in with (order2 s); [apply Hp2|]. rewrite Ho2. now left.
Qed.

Lemma rank_acyclic (tk : Toolkit) (rank : string -> nat) :
  (forall n p, parent tk (VStr n) = Ok (Some p) -> rank p < rank n) ->
  acyclic tk.
Proof.
  intros Hr.
  assert (H : forall a n, ancestor tk a n -> rank a < rank n).
  { intros a n Ha. induction Ha.
    - auto.
    - specialize (Hr _ _ H). lia. }
  intros n Hn. apply H in Hn. lia.
Qed.

Lemma toy_wf : wf_model toy_model.
Proof.
  split; simpl;
    repeat (constructor; [simpl; intuition discriminate|]); constructor.
Qed.

Lemma collision_wf : wf_model collision.
Proof.
  split; simpl;
    repeat (constructor; [simpl; intuition discriminate|]); constructor.
Qed.

Lemma toy_acyclic : acyclic toy.
Proof.
  apply rank_acyclic with (rank := depth 12 toy).
  intros n p H. pose proof (parent_key _ _ _ H) as Hk.
  vm_compute in Hk.
  repeat (destruct Hk as [<-|Hk];
          [vm_compute in H; try discriminate; injection H as <-;
           vm_compute; lia|]).
  destruct Hk.
Qed.

(** * The claims *)

(** C1: whenever [get_by_mapping] returns a name [r], that name is an
    ancestor-or-self of every element of [get_all_by_mapping] of the same
    identifier: for each such element [e], [r = e] or [r] is in
    [ancestors(e)].  This holds for every enumeration order of the set and
    every recursion depth. *)
Theorem get_by_mapping_ancestor_or_self (fuel : nat) set_order (tk : Toolkit)
    (u : pyval) (r : string) s (e : string) :
  (forall l, Permutation (set_order l) l) ->
  get_by_mapping fuel set_order tk u = Ok (Some r) ->
  get_all_by_mapping tk u = Ok s -> In e s ->
  exists a, ancestors fuel tk (VStr e) = Ok a /\ (r = e \/ In r a).
Proof.
  intros Hp H Hs He.
  unfold get_by_mapping, lru_cache in H.
  destruct (hashable u); [|discriminate].
  rewrite Hs in H. unfold bind at 1 in H.
  apply Permutation_in with (l' := set_order s) in He;
    [|apply Permutation_sym, Hp].
  destruct (set_order s) as [|first rest]; [discriminate|].
  destruct (ancestors fuel tk (VStr first)) as [a|x] eqn:Ha; [|discriminate].
  unfold bind at 1 in H.
  apply shared_loop_sound in H. destruct H as [Hin Hc].
  destruct He as [<-|He].
  - exists a. split; [assumption|]. destruct Hin; auto.
  - apply Hc, He.
Qed.

Lemma get_by_mapping_ancestor_or_self_witness :
  exists a, ancestors 6 toy (VStr "negatively regulates, process to process") = Ok a
            /\ ("affects" = "negatively regulates, process to process"
                \/ In "affects" a).
Proof.
  apply (get_by_mapping_ancestor_or_self 6 (fun l => l) toy
           (VStr "biolink:probe2") "affects"
           ["affects"; "negatively regulates, process to process"]).
  - intros l. apply Permutation_refl.
  - vm_compute. reflexivity.
  - vm_compute. reflexivity.
  - simpl. auto.
Defined.

(** C6: [ancestors] is the nearest-first parent chain.  On an acyclic
    model, and with a recursion depth above the number of elements,
    [ancestors(name)] returns a list [l] for every hashable [name]; when [l]
    is not empty its first element is [parent(name)]; and [l] is empty when
    [parent(name)] is [None], else it is [parent(name)] followed by
    [ancestors(parent(name))]. *)
Theorem ancestors_parent_chain (m : model) (fuel : nat) (name : pyval) :
  wf_model m -> acyclic (__init__ m) ->
  List.length (_parents (__init__ m)) < fuel ->
  hashable name = true ->
  exists l, ancestors fuel (__init__ m) name = Ok l /\
    (forall x, hd_error l = Some x -> parent (__init__ m) name = Ok (Some x)) /\
    match parent (__init__ m) name with
    | Ok None => l = []
    | Ok (Some p) =>
        exists l', ancestors fuel (__init__ m) (VStr p) = Ok l' /\ l = p :: l'
    | Raise _ => False
    end.
Proof.
  intros Hwf Hac Hlt Hh.
  assert (Ht : exists l, ancestors fuel (__init__ m) name = Ok l).
  { destruct (as_str name) as [n|] eqn:En.
    - apply as_str_Some in En. subst. now apply ancestors_total.
    - destruct fuel as [|fuel]; [lia|]. exists [].
      apply ancestors_root; [assumption | now apply parent_not_str]. }
  destruct Ht as [l Hl]. exists l. split; [assumption|].
  pose proof Hl as Hi. apply ancestors_inv in Hi.
  destruct Hi as (f & -> & _ & [[Hp ->] | (p & l' & Hp & Ha & ->)]); rewrite Hp.
  - split; [discriminate | reflexivity].
  - split; [simpl; congruence|].
    exists l'. split; [|reflexivity].
    apply ancestors_mono with f; [assumption | lia].
Qed.

Lemma ancestors_parent_chain_witness :
  exists l, ancestors 13 (__init__ toy_model) (VStr "causes") = Ok l /\
    (forall x, hd_error l = Some x ->
               parent (__init__ toy_model) (VStr "causes") = Ok (Some x)) /\
    match parent (__init__ toy_model) (VStr "causes") with
    | Ok None => l = []
    | Ok (Some p) =>
        exists l', ancestors 13 (__init__ toy_model) (VStr p) = Ok l' /\ l = p :: l'
    | Raise _ => False
    end.
Proof.
  apply (ancestors_parent_chain toy_model 13 (VStr "causes")).
  - exact toy_wf.
  - exact toy_acyclic.
  - vm_compute. lia.
  - reflexivity.
Defined.

(** C8: on an acyclic model, with a recursion depth above the number of
    elements and for every enumeration order of the set, [get_by_mapping]
    returns; it returns [None] exactly when [get_all_by_mapping] is empty or
    no name is an ancestor-or-self of all the matched elements, and a name
    otherwise. *)
Theorem get_by_mapping_none_iff (m : model) (fuel : nat) set_order (u : string) :
  wf_model m -> acyclic (__init__ m) ->
  List.length (_parents (__init__ m)) < fuel ->
  (forall l, Permutation (set_order l) l) ->
  exists s r,
    get_all_by_mapping (__init__ m) (VStr u) = Ok s
    /\ get_by_mapping fuel set_order (__init__ m) (VStr u) = Ok r
    /\ (r = None <-> s = [] \/ ~ exists x, common fuel (__init__ m) s x).
Proof.
  intros Hwf Hac Hlt Hp.
  destruct (get_all_by_mapping_str (__init__ m) u) as [s Hs].
  assert (Hall : forall e, In e s ->
                 exists a, ancestors fuel (__init__ m) (VStr e) = Ok a)
    by (intros e _; now apply ancestors_total).
  destruct (get_by_mapping_result fuel set_order (__init__ m) u s Hs Hall Hp)
    as [[-> Hr] | (first & rest & a & cs & Ho & Ha & Hc & Hr)].
  - exists [], None. repeat split; auto.
  - exists s, (hd_error (filter (commonb ((first :: a) :: cs)) (first :: a))).
    split; [assumption|]. split; [assumption|].
    assert (Hf : forall x, commonb ((first :: a) :: cs) x = true
                           <-> common fuel (__init__ m) s x).
    { intros x. rewrite (chains_of_common _ _ _ _ x Hc).
      apply common_perm. rewrite <- Ho. apply Hp. }
    assert (Hfirst : In first s).
    { apply Permutation_in with (set_order s); [apply Hp|].
      rewrite Ho. now left. }
    split.
    + intros Hn. right. intros [x Hx].
      assert (Hin : In x (first :: a)) by (eapply common_in_chain; eauto).
      apply (hd_filter_None _ _ Hn) in Hin. apply Hf in Hx. congruence.
    + intros [->|Hn]; [destruct Hfirst|].
      destruct (hd_error _) as [y|] eqn:E; [|reflexivity].
      exfalso. apply Hn. exists y.
      destruct (hd_filter_Some _ _ _ E) as (_ & _ & _ & Hy & _).
      now apply Hf.
Qed.

Lemma get_by_mapping_none_iff_witness :
  exists s r,
    get_all_by_mapping (__init__ toy_model) (VStr "biolink:probe4") = Ok s
    /\ get_by_mapping 13 (@rev string) (__init__ toy_model) (VStr "biolink:probe4")
       = Ok r
    /\ (r = None <-> s = [] \/ ~ exists x, common 13 (__init__ toy_model) s x).
Proof.
  apply (get_by_mapping_none_iff toy_model 13 (@rev string) "biolink:probe4").
  - exact toy_wf.
  - exact toy_acyclic.
  - vm_compute. lia.
  - intros l. apply Permutation_sym, Permutation_rev.
Defined.

(** C9: when a name is both in [slots] and in [classes], the merged
    [elements] and [_parents] tables hold the entry of the classes:
    [get_element(name)] returns the properties given under [classes] and
    [parent(name)] their [is_a]. *)
Theorem collision_later_category_wins (m : model) (name : string)
    (es ec : element) :
  wf_model m ->
  dict_get String.eqb name (model_slots m) = Some es ->
  dict_get String.eqb name (model_classes m) = Some ec ->
  dict_get String.eqb name (elements (__init__ m)) = Some ec
  /\ dict_get String.eqb name (_parents (__init__ m)) = Some [is_a ec]
  /\ get_element (__init__ m) (VStr name) = Ok (Some ec)
  /\ parent (__init__ m) (VStr name) = Ok (is_a ec).
Proof.
  intros Hwf Hs Hc.
  pose proof (get_element_init m name Hwf) as He.
  pose proof (parent_init m name Hwf) as Hpa.
  unfold merged_entry in He, Hpa. rewrite Hc in He, Hpa.
  destruct Hwf as [_ Hnd]. simpl.
  rewrite !(dict_get_merge String.eqb String.eqb_eq)
    by (try rewrite keys_parents_of; assumption).
  rewrite !dict_get_parents_of, Hc. simpl. auto.
Qed.

Lemma collision_later_category_wins_witness :
  dict_get String.eqb "n" (elements (__init__ collision))
  = Some (entry (Some "b") ["class"] [])
  /\ dict_get String.eqb "n" (_parents (__init__ collision)) = Some [Some "b"]
  /\ get_element (__init__ collision) (VStr "n")
     = Ok (Some (entry (Some "b") ["class"] []))
  /\ parent (__init__ collision) (VStr "n") = Ok (Some "b").
Proof.
  apply (collision_later_category_wins collision "n"
           (entry (Some "a") ["slot"] []) (entry (Some "b") ["class"] [])).
  - exact collision_wf.
  - reflexivity.
  - reflexivity.
Defined.

(** C10: the result of [get_by_mapping] does not depend on the order in
    which the set of matched elements is enumerated: on an acyclic model,
    and with a recursion depth above the number of elements, any two
    enumeration orders give the same result. *)
Theorem get_by_mapping_order_independent (m : model) (fuel : nat)
    order1 order2 (u : string) :
  wf_model m -> acyclic (__init__ m) ->
  List.length (_parents (__init__ m)) < fuel ->
  (forall l, Permutation (order1 l) l) ->
  (forall l, Permutation (order2 l) l) ->
  exists r, get_by_mapping fuel order1 (__init__ m) (VStr u) = Ok r
            /\ get_by_mapping fuel order2 (__init__ m) (VStr u) = Ok r.
Proof.
  intros Hwf Hac Hlt Hp1 Hp2.
  destruct (get_all_by_mapping_str (__init__ m) u) as [s Hs].
  apply get_by_mapping_same_result with (s := s); auto.
  intros e _. now apply ancestors_total.
Qed.

Lemma get_by_mapping_order_independent_witness :
  exists r,
    get_by_mapping 13 (fun l => l) (__init__ toy_model) (VStr "biolink:probe2") = Ok r
    /\ get_by_mapping 13 (@rev string) (__init__ toy_model) (VStr "biolink:probe2")
       = Ok r.
Proof.
  apply (get_by_mapping_order_independent toy_model 13 (fun l => l) (@rev string)
           "biolink:probe2").
  - exact toy_wf.
  - exact toy_acyclic.
  - vm_compute. lia.
  - intros l. apply Permutation_refl.
  - intros l. apply Permutation_sym, Permutation_rev.
Defined.

(** ** Descendants *)

(** [descendents] is the pre-order walk: each child, in the order of
    [children], followed by its own descendants. *)
Lemma descendents_preorder (fuel : nat) (tk : Toolkit) (name : pyval) cs
    (sub : string -> list string) :
  children tk name = Ok cs ->
  (forall c, In c cs -> descendents fuel tk (VStr c) = Ok (sub c)) ->
  descendents (S fuel) tk name = Ok (flat_map (fun c => c :: sub c) cs).
Proof.
  intros Hc Hsub. simpl. unfold lru_cache.
  assert (Hh : hashable name = true).
  { unfold children, lru_cache in Hc. destruct (hashable name); congruence. }
  rewrite Hh, Hc. unfold bind at 1.
  assert (Hacc : forall acc,
    fold_left
      (fun c child =>
         c <- c ;;
         d <- descendents fuel tk (VStr child) ;;
         Ok ((c ++ [child]) ++ d))
      cs (Ok acc)
    = Ok (acc ++ flat_map (fun c => c :: sub c) cs)).
  { clear Hc. induction cs as [|c cs IH]; intros acc; simpl.
    - now rewrite app_nil_r.
    - rewrite (Hsub c (or_introl eq_refl)). simpl.
      rewrite IH by (intros; apply Hsub; now right).
      now rewrite <- !app_assoc. }
  apply Hacc.
Qed.

(** Every child is among the descendants, whenever [descendents] returns. *)
Lemma children_incl_descendents (fuel : nat) (tk : Toolkit) (name : pyval) cs l :
  children tk name = Ok cs -> descendents fuel tk name = Ok l -> incl cs l.
Proof.
  intros Hc Hd. destruct fuel as [|fuel]; simpl in Hd; unfold lru_cache in Hd;
    (destruct (hashable name); [|discriminate]); [discriminate|].
  rewrite Hc in Hd. unfold bind at 1 in Hd.
  assert (Hraise : forall (xs : list string) e,
    fold_left
      (fun c child =>
         c <- c ;;
         d <- descendents fuel tk (VStr child) ;;
         Ok ((c ++ [child]) ++ d))
      xs (Raise e) = Raise e).
  { induction xs as [|x xs IH]; intros e; simpl; [reflexivity | apply IH]. }
  assert (Hacc : forall (xs acc : list string),
    fold_left
      (fun c child =>
         c <- c ;;
         d <- descendents fuel tk (VStr child) ;;
         Ok ((c ++ [child]) ++ d))
      xs (Ok acc) = Ok l -> incl acc l /\ incl xs l).
  { induction xs as [|x xs IH]; intros acc; simpl.
    - intros [= <-]. split; [apply incl_refl | intros y []].
    - destruct (descendents fuel tk (VStr x)) as [d|e]; simpl.
      + intros H. apply IH in H. destruct H as [H1 H2]. split.
        * intros y Hy. apply H1. apply in_or_app. left.
          apply in_or_app. now left.
        * intros y [<-|Hy]; [|auto]. apply H1. apply in_or_app. left.
          apply in_or_app. right. now left.
      + rewrite Hraise. discriminate. }
  apply (Hacc cs [] Hd).
Qed.

(** A class is listed among the children of its parent; so is a slot
    that is not also a class, unless a class has the same parent. *)
Lemma class_in_children (m : model) (n : string) (e : element) :
  wf_model m ->
  dict_get String.eqb n (model_classes m) = Some e ->
  exists l, children (__init__ m) (of_parent (is_a e)) = Ok l /\ In n l.
Proof.
  intros Hwf He.
  assert (Hin : In n (with_parent (is_a e) (model_classes m))).
  { apply In_with_parent. exists e. split; [|reflexivity].
    now apply (dict_get_In String.eqb String.eqb_eq). }
  rewrite (children_init m _ (is_a e)) by (destruct (is_a e); reflexivity).
  destruct (with_parent (is_a e) (model_classes m)); [destruct Hin|].
  eauto.
Qed.

Lemma slot_in_children (m : model) (n : string) (e : element) :
  dict_get String.eqb n (model_slots m) = Some e ->
  with_parent (is_a e) (model_classes m) = [] ->
  exists l, children (__init__ m) (of_parent (is_a e)) = Ok l /\ In n l.
Proof.
  intros He Hc.
  rewrite (children_init m _ (is_a e)) by (destruct (is_a e); reflexivity).
  rewrite Hc. eexists. split; [reflexivity|].
  apply In_with_parent. exists e. split; [|reflexivity].
  now apply (dict_get_In String.eqb String.eqb_eq).
Qed.

(** C2: the children index is not the inverse of the parent index on the
    model with one root slot and one root class: the recorded parent of the
    slot ["related to"] is [None] and the slots' own table lists it under
    [None], but [children(None)] is the group of the classes only. *)
Theorem children_index_drops_slot_roots :
  parent (__init__ two_roots) (VStr "related to") = Ok None
  /\ slot_children (__init__ two_roots) = [(None, ["related to"])]
  /\ class_children (__init__ two_roots) = [(None, ["named thing"])]
  /\ children (__init__ two_roots) VNone = Ok ["named thing"]
  /\ ~ In "related to" ["named thing"].
Proof.
  repeat split; try reflexivity.
  simpl. intuition discriminate.
Qed.

(** C3: in the toy taxonomy [get_by_mapping("biolink:probe3")] is not
    [None]: for every enumeration order of the four matched elements and
    every recursion depth of at least 5 it returns ["regulates"], their
    nearest common ancestor. *)
Theorem probe3_resolves_to_regulates (fuel : nat) set_order :
  (forall l, Permutation (set_order l) l) ->
  5 <= fuel ->
  get_all_by_mapping toy (VStr "biolink:probe3")
  = Ok [ "regulates, process to process";
         "negatively regulates, process to process";
         "regulates, entity to entity";
         "positively regulates, entity to entity" ]
  /\ get_by_mapping fuel set_order toy (VStr "biolink:probe3")
     = Ok (Some "regulates").
Proof.
  intros Hp Hfuel. split; [reflexivity|].
  do 5 (destruct fuel as [|fuel]; [lia|]).
  destruct (get_by_mapping_same_result (S (S (S (S (S fuel))))) (fun l => l)
              set_order toy "biolink:probe3" _ eq_refl) as (r & H1 & H2).
  - intros m Hm. vm_compute in Hm.
    repeat (destruct Hm as [<-|Hm]; [eexists; vm_compute; reflexivity|]).
    destruct Hm.
  - intros l. apply Permutation_refl.
  - assumption.
  - rewrite H2, <- H1. vm_compute. reflexivity.
Qed.

Lemma probe3_resolves_to_regulates_witness :
  get_all_by_mapping toy (VStr "biolink:probe3")
  = Ok [ "regulates, process to process";
         "negatively regulates, process to process";
         "regulates, entity to entity";
         "positively regulates, entity to entity" ]
  /\ get_by_mapping 5 (@rev string) toy (VStr "biolink:probe3")
     = Ok (Some "regulates").
Proof.
  apply (probe3_resolves_to_regulates 5 (@rev string)).
  - intros l. apply Permutation_sym, Permutation_rev.
  - lia.
Defined.

(** C7: [descendents(parent(name))] misses [name] on the model where the
    slot ["s"] and the class ["c"] both have the parent ["x"]: the parent of
    ["s"] is ["x"], and [descendents("x")] is [["c"]] at every recursion
    depth that lets it return. *)
Theorem descendents_misses_slot_child (fuel : nat) :
  parent (__init__ shared_parent) (VStr "s") = Ok (Some "x")
  /\ slot_children (__init__ shared_parent) = [(None, ["x"]); (Some "x", ["s"])]
  /\ children (__init__ shared_parent) (VStr "x") = Ok ["c"]
  /\ descendents (S (S fuel)) (__init__ shared_parent) (VStr "x") = Ok ["c"]
  /\ ~ In "s" ["c"].
Proof.
  repeat split; try reflexivity.
  simpl. intuition discriminate.
Qed.

(** ** Arguments that match nothing *)

Lemma parent_absent (tk : Toolkit) (v : pyval) :
  hashable v = true -> no_parents_key tk v -> parent tk v = Ok None.
Proof.
  intros Hh Hn. unfold parent, lru_cache. rewrite Hh.
  destruct (as_str v) as [n|] eqn:E; [|reflexivity].
  now rewrite (Hn n E).
Qed.

Lemma is_category_absent (fuel : nat) (tk : Toolkit) (v : pyval) :
  hashable v = true -> no_parents_key tk v -> not_the_literal v ->
  is_category (S fuel) tk v = Ok false.
Proof.
  intros Hh Hn Hl. unfold is_category, lru_cache.
  rewrite Hh, (ancestors_root fuel tk v Hh (parent_absent tk v Hh Hn)).
  unfold not_the_literal in Hl.
  destruct (as_str v) as [n|] eqn:E; [|reflexivity].
  destruct (String.eqb n "named thing") eqn:En.
  - apply String.eqb_eq in En. congruence.
  - clear -En. unfold bind.
    repeat match goal with
           | |- match ?x with _ => _ end = _ => destruct x; try reflexivity
           end.
    simpl in En. discriminate.
Qed.

Lemma get_element_absent (tk : Toolkit) (v : pyval) :
  hashable v = true -> no_elements_key tk v -> get_element tk v = Ok None.
Proof.
  intros Hh Hn. unfold get_element, lru_cache. rewrite Hh.
  destruct (as_str v) as [n|] eqn:E; [|reflexivity].
  now rewrite (Hn n E).
Qed.

Lemma children_absent (tk : Toolkit) (v : pyval) :
  hashable v = true -> no_children_key tk v -> children tk v = Ok [].
Proof.
  intros Hh Hk. unfold children, lru_cache, get_or_empty. rewrite Hh.
  destruct (as_parent v) as [k|] eqn:E; [|reflexivity].
  now rewrite (Hk k E).
Qed.

Lemma get_all_by_mapping_absent (tk : Toolkit) (v : pyval) :
  hashable v = true -> in_no_mappings tk v -> get_all_by_mapping tk v = Ok [].
Proof.
  intros Hh Hm. unfold get_all_by_mapping, lru_cache. rewrite Hh.
  f_equal. unfold in_no_mappings in Hm.
  induction (elements tk) as [|kv d IH]; simpl; [reflexivity|].
  rewrite (Hm kv (or_introl eq_refl)). apply IH.
  intros kv' H. apply Hm. now right.
Qed.

(** [None] as an argument: no lookup by name hits, but the children
    table has the key [None] as soon as an element has no [is_a]. *)
Example children_of_None_is_the_root_group :
  children toy VNone = Ok ["named thing"]
  /\ descendents 3 toy VNone = Ok ["named thing"; "gene"].
Proof. split; reflexivity. Qed.

(** An unhashable argument is refused by the cache, at every depth. *)
Example unhashable_argument_raises (fuel : nat) set_order (tk : Toolkit)
    (l : list pyval) :
  parent tk (VList l) = Raise TypeError
  /\ children tk (VList l) = Raise TypeError
  /\ ancestors fuel tk (VList l) = Raise TypeError
  /\ descendents fuel tk (VList l) = Raise TypeError
  /\ get_element tk (VList l) = Raise TypeError
  /\ is_edgelabel tk (VList l) = Raise TypeError
  /\ is_category fuel tk (VList l) = Raise TypeError
  /\ get_all_by_mapping tk (VList l) = Raise TypeError
  /\ get_by_mapping fuel set_order tk (VList l) = Raise TypeError.
Proof. repeat split; destruct fuel; reflexivity. Qed.

(** The literal of [is_category] needs no element of that name. *)
Example is_category_of_the_literal (fuel : nat) :
  get_element (__init__ two_roots) (VStr "related to") <> Ok None
  /\ get_element (__init__ shared_parent) (VStr "named thing") = Ok None
  /\ is_category fuel (__init__ shared_parent) (VStr "named thing") = Ok true.
Proof. repeat split. discriminate. Qed.

(** C4, as it holds, query by query.  On a hashable argument:
    [parent] and [ancestors] return their absent result when the argument
    is no key of [_parents], and so does [is_category] when the argument
    is moreover not the string ["named thing"]; [get_element] and
    [is_edgelabel] when it is no key of [elements]; [children] and
    [descendents] when it is no key of [_children]; [get_all_by_mapping]
    and [get_by_mapping] when no element lists it in its [mappings].  A
    value that is not a string ([None], a bool, an int, a float) meets the
    conditions of the seven queries that look up a name or a mapping, on
    every toolkit; a value that is neither a string nor [None] meets the
    condition of [children] and [descendents] too.  Nothing is raised, at
    every positive recursion depth and for every enumeration order. *)
Theorem queries_absent_per_query (fuel : nat) set_order (tk : Toolkit)
    (v : pyval) :
  hashable v = true ->
  (forall l, Permutation (set_order l) l) ->
  (no_parents_key tk v ->
     parent tk v = Ok None
     /\ ancestors (S fuel) tk v = Ok []
     /\ (not_the_literal v -> is_category (S fuel) tk v = Ok false))
  /\ (no_elements_key tk v ->
       get_element tk v = Ok None /\ is_edgelabel tk v = Ok false)
  /\ (no_children_key tk v ->
       children tk v = Ok [] /\ descendents (S fuel) tk v = Ok [])
  /\ (in_no_mappings tk v ->
       get_all_by_mapping tk v = Ok []
       /\ get_by_mapping fuel set_order tk v = Ok None)
  /\ (as_str v = None ->
       no_parents_key tk v /\ not_the_literal v
       /\ no_elements_key tk v /\ in_no_mappings tk v)
  /\ (as_parent v = None -> no_children_key tk v).
Proof.
  intros Hh Hp. repeat split.
  - now apply parent_absent.
  - apply ancestors_root; [assumption | now apply parent_absent].
  - now apply is_category_absent.
  - now apply get_element_absent.
  - unfold is_edgelabel, lru_cache.
    now rewrite Hh, (get_element_absent tk v Hh H).
  - now apply children_absent.
  - simpl. unfold lru_cache. now rewrite Hh, (children_absent tk v Hh H).
  - now apply get_all_by_mapping_absent.
  - apply get_by_mapping_empty; [assumption|].
    now apply get_all_by_mapping_absent.
  - intros n E. congruence.
  - unfold not_the_literal. congruence.
  - intros n E. congruence.
  - intros kv _. unfold py_in. now rewrite H.
  - intros k E. congruence.
Qed.

Lemma queries_absent_per_query_witness :
  (parent toy (VStr "invalid") = Ok None
   /\ children toy (VStr "invalid") = Ok []
   /\ ancestors 1 toy (VStr "invalid") = Ok []
   /\ descendents 1 toy (VStr "invalid") = Ok []
   /\ get_element toy (VStr "invalid") = Ok None
   /\ is_edgelabel toy (VStr "invalid") = Ok false
   /\ is_category 1 toy (VStr "invalid") = Ok false
   /\ get_all_by_mapping toy (VStr "invalid") = Ok []
   /\ get_by_mapping 0 (fun l => l) toy (VStr "invalid") = Ok None)
  /\ (parent toy VNone = Ok None
      /\ ancestors 1 toy VNone = Ok []
      /\ get_element toy VNone = Ok None
      /\ is_edgelabel toy VNone = Ok false
      /\ is_category 1 toy VNone = Ok false
      /\ get_all_by_mapping toy VNone = Ok []
      /\ get_by_mapping 0 (fun l => l) toy VNone = Ok None).
Proof.
  split.
  - destruct (queries_absent_per_query 0 (fun l => l) toy (VStr "invalid")
                eq_refl (fun l => Permutation_refl l))
      as (Hpar & Hel & Hch & Hmap & _ & _).
    destruct Hpar as (H1 & H2 & H3); [intros n [= <-]; reflexivity|].
    destruct Hel as (H4 & H5); [intros n [= <-]; reflexivity|].
    destruct Hch as (H6 & H7); [intros k [= <-]; reflexivity|].
    destruct Hmap as (H8 & H9).
    { intros kv H. vm_compute in H.
      repeat (destruct H as [<-|H]; [reflexivity|]). destruct H. }
    repeat split; try assumption; apply H3; discriminate.
  - destruct (queries_absent_per_query 0 (fun l => l) toy VNone
                eq_refl (fun l => Permutation_refl l))
      as (Hpar & Hel & _ & Hmap & Hns & _).
    destruct (Hns eq_refl) as (N1 & N2 & N3 & N4).
    destruct (Hpar N1) as (H1 & H2 & H3).
    destruct (Hel N3) as (H4 & H5).
    destruct (Hmap N4) as (H8 & H9).
    repeat split; auto.
Defined.

(** C4, as stated, fails.  [None] is hashable and names no element, yet
    [children(None)] and [descendents(None)] are not empty on the model
    with one root in each category; a name that no element has, but that
    an element gives as its [is_a], has children; the string
    ["named thing"] is a category without being an element; and a list as
    the argument raises [TypeError]. *)
Lemma queries_not_absent_on_unknown :
  (get_element (__init__ two_roots) VNone = Ok None
   /\ children (__init__ two_roots) VNone <> Ok []
   /\ descendents 2 (__init__ two_roots) VNone <> Ok [])
  /\ (get_element (__init__ dangling) (VStr "ghost") = Ok None
      /\ children (__init__ dangling) (VStr "ghost") <> Ok [])
  /\ (get_element (__init__ dangling) (VStr "named thing") = Ok None
      /\ is_category 1 (__init__ dangling) (VStr "named thing") <> Ok false)
  /\ parent (__init__ two_roots) (VList []) = Raise TypeError.
Proof. repeat split; discriminate. Qed.

(** C5, as it holds: for every [p] and every [c] listed in [children(p)]
    that is not defined both as a slot and as a class, [parent(c)] is [p]. *)
Theorem children_parent_inverse (m : model) (p : pyval) l (c : string) :
  wf_model m ->
  children (__init__ m) p = Ok l -> In c l ->
  dict_get String.eqb c (model_slots m) = None
  \/ dict_get String.eqb c (model_classes m) = None ->
  exists r, parent (__init__ m) (VStr c) = Ok r /\ of_parent r = p.
Proof.
  intros Hwf Hc Hin Hone.
  destruct (as_parent p) as [k|] eqn:Ek.
  - assert (p = of_parent k) as ->
      by (destruct p; simpl in Ek; try discriminate; injection Ek as <-; reflexivity).
    rewrite (children_init m _ k Ek) in Hc. injection Hc as <-.
    exists k. split; [|reflexivity].
    rewrite (parent_init m c Hwf). f_equal. unfold merged_entry.
    destruct Hwf as [Hs Hcl].
    destruct (with_parent k (model_classes m)) as [|c0 cs] eqn:Ew.
    + apply In_with_parent in Hin. destruct Hin as (e & He & <-).
      apply (In_dict_get String.eqb String.eqb_eq) in He; [|assumption].
      destruct Hone as [H|H]; [congruence|]. now rewrite H, He.
    + rewrite <- Ew in Hin. apply In_with_parent in Hin.
      destruct Hin as (e & He & <-).
      apply (In_dict_get String.eqb String.eqb_eq) in He; [|assumption].
      now rewrite He.
  - unfold children, lru_cache in Hc. rewrite Ek in Hc.
    destruct (hashable p); [|discriminate]. injection Hc as <-. destruct Hin.
Qed.

Lemma children_parent_inverse_witness :
  exists r, parent (__init__ toy_model) (VStr "causes") = Ok r
            /\ of_parent r = VStr "contributes to".
Proof.
  apply (children_parent_inverse toy_model (VStr "contributes to") ["causes"]).
  - exact toy_wf.
  - reflexivity.
  - simpl. auto.
  - right. reflexivity.
Defined.

(** C5, as stated, fails when a name is defined in both categories:
    ["n"] is listed in [children("a")], from its slot entry, while
    [parent("n")] is ["b"], from its class entry. *)
Lemma children_parent_inverse_fails_on_collision :
  wf_model collision
  /\ children (__init__ collision) (VStr "a") = Ok ["n"]
  /\ In "n" ["n"]
  /\ parent (__init__ collision) (VStr "n") = Ok (Some "b")
  /\ ~ (exists r, parent (__init__ collision) (VStr "n") = Ok r
                  /\ of_parent r = VStr "a").
Proof.
  split; [exact collision_wf|].
  repeat split; [simpl; auto|].
  intros (r & Hr & E). vm_compute in Hr. injection Hr as <-. discriminate.
Qed.

(** * Further properties of the index and of the queries *)

(** ** Keys and entries of a merged dictionary *)

Section MergeFacts.
Context {K V : Type}.
Variable eqb : K -> K -> bool.
Hypothesis eqb_eq : forall x y, eqb x y = true <-> x = y.

Lemma In_keys_dict_set (x k : K) (v : V) (d : dict K V) :
  In x (keys (dict_set eqb k v d)) <-> x = k \/ In x (keys d).
Proof.
  induction d as [|[k0 v0] d IH]; simpl.
  - intuition auto.
  - destruct (eqb k k0) eqn:E; simpl.
    + apply eqb_eq in E. subst. intuition auto.
    + rewrite IH. intuition auto.
Qed.

Lemma NoDup_keys_dict_set (k : K) (v : V) (d : dict K V) :
  NoDup (keys d) -> NoDup (keys (dict_set eqb k v d)).
Proof.
  induction d as [|[k0 v0] d IH]; simpl; intros Hnd.
  - constructor; [intros [] | constructor].
  - inversion Hnd; subst. destruct (eqb k k0) eqn:E; simpl.
    + assumption.
    + constructor; [|auto]. rewrite In_keys_dict_set. intros [->|H]; [|auto].
      rewrite (proj2 (eqb_eq k k) eq_refl) in E. discriminate.
Qed.

Lemma In_keys_dict_merge (x : K) (a b : dict K V) :
  In x (keys (dict_merge eqb a b)) <-> In x (keys a) \/ In x (keys b).
Proof.
  unfold dict_merge. revert a.
  induction b as [|[k v] b IH]; intros a; simpl.
  - tauto.
  - rewrite IH, In_keys_dict_set. simpl. intuition auto.
Qed.

Lemma NoDup_keys_dict_merge (a b : dict K V) :
  NoDup (keys a) -> NoDup (keys (dict_merge eqb a b)).
Proof.
  unfold dict_merge. revert a.
  induction b as [|[k v] b IH]; intros a Hnd; simpl; [assumption|].
  apply IH. now apply NoDup_keys_dict_set.
Qed.

Lemma dict_get_Some_key (k : K) (d : dict K V) :
  In k (keys d) <-> exists v, dict_get eqb k d = Some v.
Proof.
  split.
  - intros H. destruct (dict_get eqb k d) as [v|] eqn:E; [eauto|].
    apply (dict_get_None eqb eqb_eq) in E. contradiction.
  - intros [v Hv] . apply (dict_get_In eqb eqb_eq) in Hv.
    change k with (fst (k, v)). now apply in_map.
Qed.

Lemma NoDup_keys_filter (f : K * V -> bool) (d : dict K V) :
  NoDup (keys d) -> NoDup (keys (filter f d)).
Proof.
  induction d as [|kv d IH]; simpl; intros Hnd; [constructor|].
  inversion Hnd; subst. destruct (f kv); simpl; [|auto].
  constructor; [|auto]. intros Hin. apply H1.
  unfold keys in *. apply in_map_iff in Hin. destruct Hin as (kv' & E & Hin).
  apply filter_In in Hin. rewrite <- E. apply in_map. tauto.
Qed.

Lemma In_keys_filter (f : K * V -> bool) (k : K) (d : dict K V) :
  NoDup (keys d) ->
  In k (keys (filter f d))
  <-> exists v, dict_get eqb k d = Some v /\ f (k, v) = true.
Proof.
  intros Hnd. unfold keys at 1. rewrite in_map_iff. split.
  - intros ([k' v] & <- & Hin). apply filter_In in Hin. destruct Hin as [Hin Hf].
    exists v. split; [|assumption]. now apply (In_dict_get eqb eqb_eq).
  - intros (v & Hv & Hf). exists (k, v). split; [reflexivity|].
    apply filter_In. split; [|assumption]. now apply (dict_get_In eqb eqb_eq).
Qed.
End MergeFacts.

(** The comprehension commutes with the merge: the parent table is the
    comprehension of the merged element table. *)
Lemma parents_of_dict_set (k : string) (e : element) (d : dict string element) :
  dict_set String.eqb k [is_a e] (parents_of d)
  = parents_of (dict_set String.eqb k e d).
Proof.
  induction d as [|[k0 e0] d IH]; simpl; [reflexivity|].
  destruct (String.eqb k k0); simpl; [reflexivity|]. now rewrite IH.
Qed.

Lemma parents_of_dict_merge (a b : dict string element) :
  dict_merge String.eqb (parents_of a) (parents_of b)
  = parents_of (dict_merge String.eqb a b).
Proof.
  unfold dict_merge. revert a.
  induction b as [|[k e] b IH]; intros a; simpl; [reflexivity|].
  rewrite parents_of_dict_set. apply IH.
Qed.

Lemma parent_of_element (m : model) (n : string) :
  parent (__init__ m) (VStr n)
  = Ok match dict_get String.eqb n (elements (__init__ m)) with
       | Some e => is_a e
       | None => None
       end.
Proof.
  unfold parent, lru_cache. simpl.
  rewrite parents_of_dict_merge, dict_get_parents_of.
  destruct (dict_get String.eqb n _); reflexivity.
Qed.

(** ** names, get_element and parent *)

Lemma names_iff_get_element_aux (m : model) (n : string) :
  (exists e, get_element (__init__ m) (VStr n) = Ok (Some e))
  -> In n (names (__init__ m)).
Proof.
  unfold names, get_element, lru_cache. simpl.
  rewrite in_app_iff.
  rewrite <- (or_comm (In n (keys (model_slots m)))).
  rewrite <- (In_keys_dict_merge String.eqb String.eqb_eq).
  rewrite (dict_get_Some_key String.eqb String.eqb_eq).
  intros [e He]; exists e; congruence.
Qed.

(** A name is listed by [names()] exactly when [get_element] finds an
    element under it. *)
Theorem names_iff_get_element (m : model) (n : string) :
  In n (names (__init__ m))
  <-> exists e, get_element (__init__ m) (VStr n) = Ok (Some e).
Proof.
  split; [|apply names_iff_get_element_aux].
  unfold names, get_element, lru_cache. simpl.
  rewrite in_app_iff.
  rewrite <- (or_comm (In n (keys (model_slots m)))).
  rewrite <- (In_keys_dict_merge String.eqb String.eqb_eq).
  rewrite (dict_get_Some_key String.eqb String.eqb_eq).
  intros [e He]; exists e; congruence.
Qed.




(** On a hashable argument [parent] returns, and what it returns is the
    [is_a] of the element that [get_element] finds, [None] without one. *)
Theorem parent_is_a_of_get_element (m : model) (v : pyval) :
  hashable v = true ->
  exists r, get_element (__init__ m) v = Ok r
            /\ parent (__init__ m) v
               = Ok match r with Some e => is_a e | None => None end.
Proof.
  intros Hh. destruct (as_str v) as [n|] eqn:En.
  - apply as_str_Some in En. subst.
    exists (dict_get String.eqb n (elements (__init__ m))).
    split; [reflexivity | apply parent_of_element].
  - exists None. unfold get_element, lru_cache. rewrite Hh, En.
    split; [reflexivity | now apply parent_not_str].
Qed.

Lemma parent_is_a_of_get_element_witness :
  exists r, get_element (__init__ collision) (VStr "n") = Ok r
            /\ parent (__init__ collision) (VStr "n")
               = Ok match r with Some e => is_a e | None => None end.
Proof. apply (parent_is_a_of_get_element collision (VStr "n")). reflexivity. Defined.

(** ** children *)

(** What [children] returns for a parent [p] ([None] or a name): the
    classes whose [is_a] is [p], in the order of the model, when there is
    one; otherwise the slots whose [is_a] is [p]. *)
Theorem children_group (m : model) (p : option string) :
  children (__init__ m) (of_parent p)
  = Ok match with_parent p (model_classes m) with
       | [] => with_parent p (model_slots m)
       | c :: cs => c :: cs
       end.
Proof. apply children_init. destruct p; reflexivity. Qed.

(** [children] lists no name twice. *)
Theorem children_NoDup (m : model) (v : pyval) (l : list string) :
  wf_model m -> children (__init__ m) v = Ok l -> NoDup l.
Proof.
  intros [Hs Hc] H.
  destruct (as_parent v) as [p|] eqn:Ep.
  - rewrite (children_init m v p Ep) in H. injection H as <-.
    destruct (with_parent p (model_classes m)) as [|c cs] eqn:E.
    + now apply NoDup_keys_filter.
    + rewrite <- E. now apply NoDup_keys_filter.
  - unfold children, lru_cache in H. rewrite Ep in H.
    destruct (hashable v); [|discriminate]. injection H as <-. constructor.
Qed.

Lemma children_NoDup_witness :
  NoDup ["affects"; "contributes to"].
Proof.
  apply (children_NoDup toy_model (VStr "related to")).
  - exact toy_wf.
  - reflexivity.
Defined.

(** ** ancestors *)

Lemma ancestors_not_self (fuel : nat) (tk : Toolkit) (n : string) l :
  ancestors fuel tk (VStr n) = Ok l -> ~ In n l.
Proof.
  intros H Hin.
  destruct (ancestors_suffix _ _ _ _ _ H Hin) as (pre & lx & E & Hx).
  assert (lx = l) by (eapply ancestors_det; eauto). subst lx.
  apply (f_equal (@List.length string)) in E.
  rewrite length_app in E. simpl in E. lia.
Qed.

Lemma ancestor_In_ancestors (fuel : nat) (tk : Toolkit) (a n : string) l :
  ancestor tk a n -> ancestors fuel tk (VStr n) = Ok l -> In a l.
Proof.
  intros Ha. revert fuel l. induction Ha; intros fuel l Hl;
    apply ancestors_inv in Hl;
    destruct Hl as (f & -> & _ & [[Hp ->] | (p' & l' & Hp & Hl' & ->)]);
    try congruence;
    assert (p' = p) by congruence; subst p'.
  - now left.
  - right. eauto.
Qed.

(** Whenever [ancestors] returns, the list has no repetition and does not
    contain the name itself. *)
Theorem ancestors_no_repetition (fuel : nat) (tk : Toolkit) (n : string) l :
  ancestors fuel tk (VStr n) = Ok l -> NoDup l /\ ~ In n l.
Proof.
  intros H. split; [|eapply ancestors_not_self; eauto].
  revert n l H. induction fuel as [|fuel IH]; intros n l H;
    [now apply ancestors_O in H|].
  apply ancestors_inv in H.
  destruct H as (f & [= <-] & _ & [[Hp ->] | (p & l' & Hp & Hl' & ->)]).
  - constructor.
  - constructor; [eapply ancestors_not_self; eauto | eauto].
Qed.

Lemma ancestors_no_repetition_witness :
  NoDup ["contributes to"; "related to"]
  /\ ~ In "causes" ["contributes to"; "related to"].
Proof. apply (ancestors_no_repetition 3 toy "causes"). reflexivity. Defined.

(** On a toolkit built by [__init__], [RecursionError] is the only
    exception of [ancestors] on a name. *)
Lemma ancestors_init_raise (m : model) (fuel : nat) (n : string) (e : exn) :
  ancestors fuel (__init__ m) (VStr n) = Raise e -> e = RecursionError.
Proof.
  revert n. induction fuel as [|fuel IH]; intros n; simpl; unfold lru_cache;
    simpl hashable; cbv iota.
  - congruence.
  - rewrite parent_of_element. unfold bind at 1.
    destruct (match dict_get String.eqb n (elements (__init__ m)) with
              | Some e0 => is_a e0 | None => None end) as [p|]; [|discriminate].
    destruct (ancestors fuel (__init__ m) (VStr p)) as [l|e'] eqn:E; simpl;
      [discriminate|].
    intros [= <-]. eapply IH; eauto.
Qed.

(** On a name that is its own ancestor, [ancestors] raises
    [RecursionError], whatever the recursion depth. *)
Theorem ancestors_raises_on_cycle (m : model) (fuel : nat) (n : string) :
  ancestor (__init__ m) n n ->
  ancestors fuel (__init__ m) (VStr n) = Raise RecursionError.
Proof.
  intros Hc.
  destruct (ancestors fuel (__init__ m) (VStr n)) as [l|e] eqn:E.
  - exfalso. apply (ancestors_not_self _ _ _ _ E).
    eapply ancestor_In_ancestors; eauto.
  - f_equal. eapply ancestors_init_raise; eauto.
Qed.

Lemma ancestors_raises_on_cycle_witness :
  ancestors 100 (__init__ cyclic) (VStr "a") = Raise RecursionError.
Proof.
  apply (ancestors_raises_on_cycle cyclic 100 "a").
  apply ancestor_step with (p := "b"); [reflexivity|].
  apply ancestor_parent. reflexivity.
Defined.

Lemma last_nonempty {A : Type} (l : list A) (d d' : A) :
  l <> [] -> last l d = last l d'.
Proof.
  induction l as [|x l IH]; [congruence|]. intros _.
  destruct l as [|y l]; [reflexivity|]. apply IH. discriminate.
Qed.

(** The chain ends at a root: the last name of [[name] + ancestors(name)]
    has no parent. *)
Theorem ancestors_end_at_root (fuel : nat) (tk : Toolkit) (n : string) l :
  ancestors fuel tk (VStr n) = Ok l ->
  parent tk (VStr (last l n)) = Ok None.
Proof.
  revert n l. induction fuel as [|fuel IH]; intros n l H;
    [now apply ancestors_O in H|].
  apply ancestors_inv in H.
  destruct H as (f & [= <-] & _ & [[Hp ->] | (p & l' & Hp & Hl' & ->)]).
  - assumption.
  - specialize (IH _ _ Hl'). destruct l' as [|q l']; [assumption|].
    change (last (p :: q :: l') n) with (last (q :: l') n).
    now rewrite (last_nonempty (q :: l') n p) by discriminate.
Qed.

Lemma ancestors_end_at_root_witness :
  parent toy (VStr (last ["contributes to"; "related to"] "causes")) = Ok None.
Proof. apply (ancestors_end_at_root 3 toy "causes"). reflexivity. Defined.

(** ** is_category and is_edgelabel *)

Lemma is_category_str (fuel : nat) (tk : Toolkit) (n : string) :
  is_category fuel tk (VStr n)
  = if String.eqb n "named thing" then Ok true
    else a <- ancestors fuel tk (VStr n) ;; Ok (str_in "named thing" a).
Proof.
  unfold is_category, lru_cache. simpl hashable. cbv iota. simpl as_str.
  destruct (String.eqb n "named thing") eqn:En.
  - apply String.eqb_eq in En. subst. reflexivity.
  - repeat match goal with
           | |- match ?x with _ => _ end = _ => destruct x; try reflexivity
           end.
    simpl in En. discriminate.
Qed.

Lemma str_in_cons (x y : string) (l : list string) :
  str_in x (y :: l) = (String.eqb x y || str_in x l)%bool.
Proof. reflexivity. Qed.

(** An element other than ["named thing"] is a category exactly when its
    parent is one. *)
Theorem is_category_of_parent (fuel : nat) (tk : Toolkit) (n p : string) a :
  n <> "named thing" ->
  parent tk (VStr n) = Ok (Some p) ->
  ancestors fuel tk (VStr p) = Ok a ->
  is_category (S fuel) tk (VStr n) = is_category fuel tk (VStr p).
Proof.
  intros Hn Hp Ha. rewrite !is_category_str.
  apply String.eqb_neq in Hn. rewrite Hn.
  rewrite (ancestors_cons fuel tk (VStr n) p a eq_refl Hp Ha), Ha.
  unfold bind. rewrite str_in_cons, String.eqb_sym.
  destruct (String.eqb p "named thing"); reflexivity.
Qed.

Lemma is_category_of_parent_witness :
  is_category 2 toy (VStr "gene") = is_category 1 toy (VStr "named thing").
Proof.
  apply (is_category_of_parent 1 toy "gene" "named thing" []).
  - discriminate.
  - reflexivity.
  - reflexivity.
Defined.

(** When the chain of a name is available, [is_category] answers whether
    the name is ["named thing"] or has it as an ancestor. *)
Theorem is_category_iff_ancestor (fuel : nat) (tk : Toolkit) (n : string) l :
  ancestors fuel tk (VStr n) = Ok l ->
  exists b, is_category fuel tk (VStr n) = Ok b
            /\ (b = true <-> n = "named thing" \/ ancestor tk "named thing" n).
Proof.
  intros Hl. rewrite is_category_str, Hl. simpl.
  destruct (String.eqb n "named thing") eqn:En.
  - apply String.eqb_eq in En. exists true. split; [reflexivity|]. tauto.
  - apply String.eqb_neq in En. exists (str_in "named thing" l).
    split; [reflexivity|]. rewrite str_in_In. split.
    + intros H. right. eapply ancestors_ancestor; eauto.
    + intros [H|H]; [contradiction|].
      eapply ancestor_In_ancestors; eauto.
Qed.

Lemma is_category_iff_ancestor_witness :
  exists b, is_category 3 toy (VStr "causes") = Ok b
            /\ (b = true <-> "causes" = "named thing"
                             \/ ancestor toy "named thing" "causes").
Proof.
  apply (is_category_iff_ancestor 3 toy "causes" ["contributes to"; "related to"]).
  reflexivity.
Defined.

(** [is_edgelabel] returns on every hashable argument, and it is true
    only of a name that [names()] lists. *)
Theorem is_edgelabel_only_names (m : model) (v : pyval) :
  hashable v = true ->
  exists b, is_edgelabel (__init__ m) v = Ok b
            /\ (b = true -> exists n, v = VStr n /\ In n (names (__init__ m))).
Proof.
  intros Hh. unfold is_edgelabel, lru_cache. rewrite Hh.
  destruct (as_str v) as [n|] eqn:En.
  - apply as_str_Some in En. subst.
    destruct (get_element (__init__ m) (VStr n)) as [[e|]|x] eqn:E; simpl.
    + eexists. split; [reflexivity|]. intros _. exists n. split; [reflexivity|].
      apply names_iff_get_element_aux. eauto.
    + exists false. split; [reflexivity | discriminate].
    + unfold get_element, lru_cache in E. discriminate.
  - unfold get_element, lru_cache. rewrite Hh, En. simpl.
    exists false. split; [reflexivity | discriminate].
Qed.

Lemma is_edgelabel_only_names_witness :
  exists b, is_edgelabel (__init__ toy_model) (VStr "causes") = Ok b
            /\ (b = true -> exists n, VStr "causes" = VStr n
                                      /\ In n (names (__init__ toy_model))).
Proof. apply (is_edgelabel_only_names toy_model (VStr "causes")). reflexivity. Defined.

(** ** get_all_by_mapping and get_by_mapping *)

(** [get_all_by_mapping] holds each matching name once, and a name is in
    it exactly when [get_element] finds an element under that name whose
    [mappings] list the identifier. *)
Theorem get_all_by_mapping_members (m : model) (u : string) s :
  wf_model m ->
  get_all_by_mapping (__init__ m) (VStr u) = Ok s ->
  NoDup s
  /\ forall e, In e s
       <-> exists el, get_element (__init__ m) (VStr e) = Ok (Some el)
                      /\ In u (mappings el).
Proof.
  intros [Hs _] H. unfold get_all_by_mapping, lru_cache in H. simpl in H.
  injection H as <-.
  assert (Hnd : NoDup (keys (dict_merge String.eqb (model_slots m) (model_classes m))))
    by now apply (NoDup_keys_dict_merge String.eqb String.eqb_eq).
  split; [now apply NoDup_keys_filter|].
  intros e. rewrite (In_keys_filter String.eqb String.eqb_eq) by assumption.
  unfold get_element, lru_cache. simpl.
  split; intros (el & H1 & H2); exists el.
  - split; [congruence|]. now apply str_in_In.
  - split; [congruence|]. now apply str_in_In.
Qed.

Lemma get_all_by_mapping_members_witness :
  NoDup ["affects"; "negatively regulates, process to process"]
  /\ forall e, In e ["affects"; "negatively regulates, process to process"]
       <-> exists el, get_element (__init__ toy_model) (VStr e) = Ok (Some el)
                      /\ In "biolink:probe2" (mappings el).
Proof.
  apply (get_all_by_mapping_members toy_model "biolink:probe2").
  - exact toy_wf.
  - reflexivity.
Defined.

(** An identifier that exactly one element maps resolves to that element,
    provided [ancestors] returns on it. *)
Theorem get_by_mapping_single (fuel : nat) set_order (tk : Toolkit) (u : pyval)
    (e : string) a :
  (forall l, Permutation (set_order l) l) ->
  get_all_by_mapping tk u = Ok [e] ->
  ancestors fuel tk (VStr e) = Ok a ->
  get_by_mapping fuel set_order tk u = Ok (Some e).
Proof.
  intros Hp Hs Ha. unfold get_by_mapping, lru_cache.
  destruct (hashable u) eqn:Hh.
  - rewrite Hs. unfold bind at 1.
    rewrite (Permutation_length_1_inv (Permutation_sym (Hp [e]))).
    rewrite Ha. reflexivity.
  - unfold get_all_by_mapping, lru_cache in Hs. rewrite Hh in Hs. discriminate.
Qed.

Lemma get_by_mapping_single_witness :
  get_by_mapping 2 (@rev string) toy (VStr "biolink:probe1") = Ok (Some "affects").
Proof.
  apply (get_by_mapping_single 2 (@rev string) toy (VStr "biolink:probe1")
           "affects" ["related to"]).
  - intros l. apply Permutation_sym, Permutation_rev.
  - reflexivity.
  - reflexivity.
Defined.

Lemma mutual_ancestors_eq (fuel : nat) (tk : Toolkit) (x y : string) ax ay :
  ancestors fuel tk (VStr x) = Ok ax -> ancestors fuel tk (VStr y) = Ok ay ->
  x = y \/ In x ay -> y = x \/ In y ax -> x = y.
Proof.
  intros Hx Hy [E|Ix] [E'|Iy]; try congruence.
  destruct (ancestors_suffix _ _ _ _ _ Hy Ix) as (p & l1 & -> & D1).
  destruct (ancestors_suffix _ _ _ _ _ Hx Iy) as (q & l2 & -> & D2).
  pose proof (ancestors_det _ _ _ _ _ _ D1 Hx) as L1.
  pose proof (ancestors_det _ _ _ _ _ _ D2 Hy) as L2.
  apply (f_equal (@List.length string)) in L1, L2.
  rewrite !length_app in L1, L2. simpl in L1, L2. lia.
Qed.

(** With the chains of the matched elements available, the result of
    [get_by_mapping] is a common ancestor-or-self and the most specific
    one. *)
Lemma get_by_mapping_nearest (fuel : nat) set_order (tk : Toolkit) (u : string)
    s (r : string) :
  get_all_by_mapping tk (VStr u) = Ok s ->
  (forall m, In m s -> exists a, ancestors fuel tk (VStr m) = Ok a) ->
  (forall l, Permutation (set_order l) l) ->
  get_by_mapping fuel set_order tk (VStr u) = Ok (Some r) ->
  common fuel tk s r
  /\ exists a, ancestors fuel tk (VStr r) = Ok a
               /\ forall x, common fuel tk s x -> x = r \/ In x a.
Proof.
  intros Hs Hall Hp Hr.
  destruct (get_by_mapping_result fuel set_order tk u s Hs Hall Hp)
    as [[-> Hn] | (first & rest & a & cs & Ho & Ha & Hc & Hr')]; [congruence|].
  assert (Hhd : hd_error (filter (commonb ((first :: a) :: cs)) (first :: a))
                = Some r) by congruence.
  clear Hr. rename Hhd into Hr.
  assert (Hf : forall x, commonb ((first :: a) :: cs) x = true
                         <-> common fuel tk s x).
  { intros x. rewrite (chains_of_common _ _ _ _ x Hc).
    apply common_perm. rewrite <- Ho. apply Hp. }
  assert (Hfirst : In first s).
  { apply Permutation_in with (set_order s); [apply Hp|]. rewrite Ho. now left. }
  destruct (hd_filter_Some _ _ _ Hr) as (pre & post & S & Hy & Hpre).
  split; [now apply Hf|].
  exists post. split; [eapply chain_split; eauto|].
  intros x Hx.
  assert (Hin : In x (first :: a)) by (eapply common_in_chain; eauto).
  rewrite S in Hin. apply in_app_or in Hin.
  destruct Hin as [Hin|[Hin|Hin]]; auto.
  apply Hpre in Hin. apply Hf in Hx. congruence.
Qed.

(** The result of [get_by_mapping] is the most specific common ancestor:
    every name that is an ancestor-or-self of all the matched elements is
    the result or one of its ancestors. *)
Theorem get_by_mapping_most_specific (fuel : nat) set_order (tk : Toolkit)
    (u : string) s (r x : string) :
  get_all_by_mapping tk (VStr u) = Ok s ->
  (forall m, In m s -> exists a, ancestors fuel tk (VStr m) = Ok a) ->
  (forall l, Permutation (set_order l) l) ->
  get_by_mapping fuel set_order tk (VStr u) = Ok (Some r) ->
  common fuel tk s x ->
  exists a, ancestors fuel tk (VStr r) = Ok a /\ (x = r \/ In x a).
Proof.
  intros Hs Hall Hp Hr Hx.
  destruct (get_by_mapping_nearest fuel set_order tk u s r Hs Hall Hp Hr)
    as (_ & a & Ha & H).
  exists a. split; [assumption | now apply H].
Qed.

(** When one of the matched elements is an ancestor-or-self of all of
    them, [get_by_mapping] returns that element. *)
Theorem get_by_mapping_matched_ancestor (fuel : nat) set_order (tk : Toolkit)
    (u : string) s (e : string) :
  get_all_by_mapping tk (VStr u) = Ok s ->
  (forall m, In m s -> exists a, ancestors fuel tk (VStr m) = Ok a) ->
  (forall l, Permutation (set_order l) l) ->
  In e s -> common fuel tk s e ->
  get_by_mapping fuel set_order tk (VStr u) = Ok (Some e).
Proof.
  intros Hs Hall Hp He Hc.
  destruct (get_by_mapping_result fuel set_order tk u s Hs Hall Hp)
    as [[-> Hn] | (first & rest & a & cs & Ho & Ha & Hch & Hr)]; [destruct He|].
  destruct (hd_error (filter (commonb ((first :: a) :: cs)) (first :: a)))
    as [r|] eqn:E.
  - destruct (get_by_mapping_nearest fuel set_order tk u s r Hs Hall Hp Hr)
      as (Hcr & ar & Har & Hmost).
    destruct (Hcr e He) as (ae & Hae & Hre).
    rewrite Hr. do 2 f_equal.
    apply (mutual_ancestors_eq fuel tk r e ar ae Har Hae Hre).
    destruct (Hmost e Hc); auto.
  - exfalso.
    assert (Hin : In e (first :: a)).
    { eapply common_in_chain; eauto.
      apply Permutation_in with (set_order s); [apply Hp|]. rewrite Ho. now left. }
    apply (hd_filter_None _ _ E) in Hin.
    assert (Ht : commonb ((first :: a) :: cs) e = true).
    { apply (chains_of_common _ _ _ _ e Hch).
      apply (common_perm fuel tk (set_order s) s e (Hp s)) in Hc.
      now rewrite Ho in Hc. }
    congruence.
Qed.

(** Goals over the members of a concrete list. *)
Ltac each_member H tac :=
  simpl in H; repeat (destruct H as [<-|H]; [tac|]); destruct H.

Lemma get_by_mapping_most_specific_witness :
  exists a, ancestors 5 toy (VStr "regulates") = Ok a
            /\ ("affects" = "regulates" \/ In "affects" a).
Proof.
  apply (get_by_mapping_most_specific 5 (fun l => l) toy "biolink:probe3"
           [ "regulates, process to process";
             "negatively regulates, process to process";
             "regulates, entity to entity";
             "positively regulates, entity to entity" ]).
  - reflexivity.
  - intros m H. each_member H ltac:(eexists; vm_compute; reflexivity).
  - intros l. apply Permutation_refl.
  - vm_compute. reflexivity.
  - intros m H.
    each_member H ltac:(eexists; split; [vm_compute; reflexivity | simpl; tauto]).
Defined.

Lemma get_by_mapping_matched_ancestor_witness :
  get_by_mapping 5 (@rev string) toy (VStr "biolink:probe4") = Ok (Some "affects").
Proof.
  apply (get_by_mapping_matched_ancestor 5 (@rev string) toy "biolink:probe4"
           [ "affects";
             "regulates, process to process";
             "negatively regulates, process to process";
             "regulates, entity to entity";
             "positively regulates, entity to entity" ]).
  - reflexivity.
  - intros m H. each_member H ltac:(eexists; vm_compute; reflexivity).
  - intros l. apply Permutation_sym, Permutation_rev.
  - simpl. auto.
  - intros m H.
    each_member H ltac:(eexists; split; [vm_compute; reflexivity | simpl; tauto]).
Defined.

(** ** descendents *)

Lemma children_str_parent (m : model) (n c : string) cs :
  wf_model m -> disjoint_names m ->
  children (__init__ m) (VStr n) = Ok cs -> In c cs ->
  parent (__init__ m) (VStr c) = Ok (Some n).
Proof.
  intros Hwf Hd Hc Hin.
  rewrite (children_init m (VStr n) (Some n) eq_refl) in Hc. injection Hc as <-.
  rewrite (parent_init m c Hwf). f_equal. unfold merged_entry.
  destruct Hwf as [Hs Hcl].
  destruct (with_parent (Some n) (model_classes m)) as [|c0 cs] eqn:Ew.
  - apply In_with_parent in Hin. destruct Hin as (e & He & E).
    apply (In_dict_get String.eqb String.eqb_eq) in He; [|assumption].
    destruct (Hd c) as [H|H]; [congruence|]. now rewrite H, He.
  - rewrite <- Ew in Hin. apply In_with_parent in Hin.
    destruct Hin as (e & He & E).
    apply (In_dict_get String.eqb String.eqb_eq) in He; [|assumption].
    now rewrite He.
Qed.

(** A member of [descendents(name)] is a child of [name] or a descendant
    of one. *)
Lemma descendents_In (fuel : nat) (tk : Toolkit) (name : pyval) l (x : string) :
  descendents (S fuel) tk name = Ok l -> In x l ->
  exists cs c, children tk name = Ok cs /\ In c cs
    /\ (x = c \/ exists l', descendents fuel tk (VStr c) = Ok l' /\ In x l').
Proof.
  simpl. unfold lru_cache. destruct (hashable name); [|discriminate].
  destruct (children tk name) as [cs|e]; [|discriminate].
  unfold bind at 1. intros Hf Hin. exists cs.
  assert (Hraise : forall (xs : list string) e,
    fold_left
      (fun c child =>
         c <- c ;;
         d <- descendents fuel tk (VStr child) ;;
         Ok ((c ++ [child]) ++ d))
      xs (Raise e) = Raise e).
  { induction xs as [|y xs IH]; intros e; simpl; [reflexivity | apply IH]. }
  assert (Hacc : forall (xs acc : list string),
    fold_left
      (fun c child =>
         c <- c ;;
         d <- descendents fuel tk (VStr child) ;;
         Ok ((c ++ [child]) ++ d))
      xs (Ok acc) = Ok l ->
    In x acc
    \/ exists c, In c xs
         /\ (x = c \/ exists l', descendents fuel tk (VStr c) = Ok l' /\ In x l')).
  { induction xs as [|y xs IH]; intros acc; simpl.
    - intros [= <-]. now left.
    - destruct (descendents fuel tk (VStr y)) as [d|e] eqn:Ed; simpl.
      + intros H. destruct (IH _ H) as [Ha | (c & Hc & Hx)].
        * apply in_app_or in Ha. destruct Ha as [Ha|Ha].
          -- apply in_app_or in Ha. destruct Ha as [Ha|[<-|[]]]; [now left|].
             right. exists y. split; [now left | now left].
          -- right. exists y. split; [now left|]. right. eauto.
        * right. exists c. split; [now right | assumption].
      + rewrite Hraise. discriminate. }
  destruct (Hacc cs [] Hf) as [[] | (c & Hc & Hx)].
  exists c. auto.
Qed.

Lemma descendents_ancestor (m : model) (fuel : nat) (n x : string) l :
  wf_model m -> disjoint_names m ->
  descendents fuel (__init__ m) (VStr n) = Ok l -> In x l ->
  ancestor (__init__ m) n x.
Proof.
  intros Hwf Hd. revert n x l.
  induction fuel as [|fuel IH]; intros n x l H Hin; [discriminate|].
  destruct (descendents_In _ _ _ _ _ H Hin) as (cs & c & Hc & Hcin & Hx).
  pose proof (children_str_parent m n c cs Hwf Hd Hc Hcin) as Hp.
  destruct Hx as [->|(l' & Hl' & Hx)].
  - now apply ancestor_parent.
  - eapply ancestor_trans; [apply ancestor_parent; eassumption | eauto].
Qed.

(** Where no name is both a slot and a class, every member of
    [descendents(name)] has [name] in its [ancestors]. *)
Theorem descendents_below (m : model) (fuel fuel' : nat) (n x : string) l a :
  wf_model m -> disjoint_names m ->
  descendents fuel (__init__ m) (VStr n) = Ok l -> In x l ->
  ancestors fuel' (__init__ m) (VStr x) = Ok a ->
  In n a.
Proof.
  intros Hwf Hd Hl Hin Ha.
  eapply ancestor_In_ancestors; [|eassumption].
  eapply descendents_ancestor; eauto.
Qed.

Lemma toy_disjoint : disjoint_names toy_model.
Proof.
  intros n.
  destruct (dict_get String.eqb n (model_classes toy_model)) as [e|] eqn:E;
    [|now right].
  left. apply (dict_get_In String.eqb String.eqb_eq) in E. simpl in E.
  destruct E as [E|[E|[]]]; injection E as <- _; reflexivity.
Qed.

Lemma descendents_below_witness :
  In "related to" ["contributes to"; "related to"].
Proof.
  apply (descendents_below toy_model 6 3 "related to" "causes"
           [ "affects"; "regulates"; "regulates, process to process";
             "negatively regulates, process to process";
             "regulates, entity to entity";
             "positively regulates, entity to entity";
             "negatively regulates, entity to entity"; "contributes to";
             "causes" ]).
  - exact toy_wf.
  - exact toy_disjoint.
  - vm_compute. reflexivity.
  - simpl. tauto.
  - reflexivity.
Defined.

Lemma descendents_raise (fuel : nat) (tk : Toolkit) (n : string) (e : exn) :
  descendents (S fuel) tk (VStr n) = Raise e ->
  exists cs c, children tk (VStr n) = Ok cs /\ In c cs
               /\ descendents fuel tk (VStr c) = Raise e.
Proof.
  simpl. unfold lru_cache. simpl hashable. cbv iota.
  destruct (children tk (VStr n)) as [cs|e'] eqn:Ec;
    [|unfold children, lru_cache in Ec; discriminate].
  unfold bind at 1. intros Hf. exists cs.
  assert (Hraise : forall (xs : list string) e0,
    fold_left
      (fun c child =>
         c <- c ;;
         d <- descendents fuel tk (VStr child) ;;
         Ok ((c ++ [child]) ++ d))
      xs (Raise e0) = Raise e0).
  { induction xs as [|y xs IH]; intros e0; simpl; [reflexivity | apply IH]. }
  assert (Hacc : forall (xs acc : list string),
    fold_left
      (fun c child =>
         c <- c ;;
         d <- descendents fuel tk (VStr child) ;;
         Ok ((c ++ [child]) ++ d))
      xs (Ok acc) = Raise e ->
    exists c, In c xs /\ descendents fuel tk (VStr c) = Raise e).
  { induction xs as [|y xs IH]; intros acc; simpl; [discriminate|].
    destruct (descendents fuel tk (VStr y)) as [d|e0] eqn:Ed; simpl.
    - intros H. destruct (IH _ H) as (c & Hc & Hr). eauto.
    - rewrite Hraise. intros [= ->]. eauto. }
  destruct (Hacc cs [] Hf) as (c & Hc & Hr). eauto.
Qed.

(** When the recursion depth runs out, that many distinct names lie on
    the path walked down, all but the first of them keys of [_parents]. *)
Lemma descendents_path (m : model) (fuel : nat) (n : string) :
  wf_model m -> disjoint_names m -> acyclic (__init__ m) ->
  (exists l, descendents fuel (__init__ m) (VStr n) = Ok l)
  \/ (exists path, List.length path = fuel /\ NoDup path
        /\ (forall x, In x path -> x = n \/ ancestor (__init__ m) n x)
        /\ (forall x, In x path -> x <> n ->
                       In x (keys (_parents (__init__ m))))).
Proof.
  intros Hwf Hd Hac. revert n. induction fuel as [|fuel IH]; intros n.
  - right. exists []. repeat split; [constructor | intros x [] | intros x []].
  - destruct (descendents (S fuel) (__init__ m) (VStr n)) as [l|e] eqn:E;
      [left; eauto|].
    right. apply descendents_raise in E.
    destruct E as (cs & c & Hc & Hcin & Hr).
    pose proof (children_str_parent m n c cs Hwf Hd Hc Hcin) as Hp.
    destruct (IH c) as [[l Hl] | (path & Hlen & Hnd & Hanc & Hkey)];
      [congruence|].
    assert (Hup : forall x, In x path -> ancestor (__init__ m) n x).
    { intros x Hx. destruct (Hanc x Hx) as [->|H].
      - now apply ancestor_parent.
      - eapply ancestor_trans; [apply ancestor_parent; eassumption | eauto]. }
    exists (n :: path). split; [simpl; congruence|]. split; [|split].
    + constructor; [|assumption]. intros Hin. exact (Hac n (Hup n Hin)).
    + intros x [<-|Hx]; auto.
    + intros x [<-|Hx] Hne; [congruence|].
      destruct (String.eqb_spec x c) as [->|Hxc].
      * eapply parent_key; eauto.
      * auto.
Qed.

(** On an acyclic model where no name is both a slot and a class,
    [descendents] returns on every name once the recursion depth exceeds
    the number of elements by two. *)
Theorem descendents_total (m : model) (fuel : nat) (n : string) :
  wf_model m -> disjoint_names m -> acyclic (__init__ m) ->
  S (List.length (_parents (__init__ m))) < fuel ->
  exists l, descendents fuel (__init__ m) (VStr n) = Ok l.
Proof.
  intros Hwf Hd Hac Hlt.
  destruct (descendents_path m fuel n Hwf Hd Hac)
    as [H | (path & Hlen & Hnd & _ & Hkey)]; [assumption|].
  exfalso.
  assert (Hle : List.length path <= S (List.length (keys (_parents (__init__ m))))).
  { destruct (in_dec string_dec n path) as [Hin|Hnin].
    - apply in_split in Hin. destruct Hin as (l1 & l2 & ->).
      pose proof (NoDup_remove_1 _ _ _ Hnd) as Hnd'.
      pose proof (NoDup_remove_2 _ _ _ Hnd) as Hn.
      assert (Hincl : incl (l1 ++ l2) (keys (_parents (__init__ m)))).
      { intros y Hy. apply Hkey.
        - apply in_app_or in Hy. apply in_or_app.
          destruct Hy; [now left | right; now right].
        - intros ->. contradiction. }
      apply NoDup_incl_length in Hincl; [|assumption].
      rewrite length_app in Hincl. rewrite length_app.
      change (List.length (n :: l2)) with (S (List.length l2)). lia.
    - assert (Hincl : incl path (keys (_parents (__init__ m)))).
      { intros y Hy. apply Hkey; [assumption|]. intros ->. contradiction. }
      apply NoDup_incl_length in Hincl; [|assumption]. lia. }
  unfold keys in Hle. rewrite length_map in Hle. lia.
Qed.

Lemma descendents_total_witness :
  exists l, descendents 14 (__init__ toy_model) (VStr "related to") = Ok l.
Proof.
  apply (descendents_total toy_model 14 "related to").
  - exact toy_wf.
  - exact toy_disjoint.
  - exact toy_acyclic.
  - vm_compute. lia.
Defined.

Lemma children_incl_descendents_witness :
  incl ["named thing"] ["named thing"; "gene"].
Proof.
  apply (children_incl_descendents 3 toy VNone); reflexivity.
Defined.

(** ** What the index keeps of the inverse *)

(** An element is listed among the children of its parent when it is a
    class, and also when it is a slot and no class has the same parent. *)
Theorem in_children_of_parent (m : model) (n : string) (e : element) :
  wf_model m ->
  merged_entry m n = Some e ->
  dict_get String.eqb n (model_classes m) <> None
  \/ with_parent (is_a e) (model_classes m) = [] ->
  exists l, children (__init__ m) (of_parent (is_a e)) = Ok l /\ In n l.
Proof.
  intros Hwf He Hc. unfold merged_entry in He.
  destruct (dict_get String.eqb n (model_classes m)) as [ec|] eqn:Ec.
  - injection He as <-. now apply class_in_children.
  - destruct Hc as [Hc|Hc]; [congruence|]. now apply slot_in_children.
Qed.

Lemma in_children_of_parent_witness :
  exists l, children (__init__ toy_model)
                     (of_parent (is_a (entry (Some "related to") [] [])))
            = Ok l
            /\ In "contributes to" l.
Proof.
  apply (in_children_of_parent toy_model "contributes to"
           (entry (Some "related to") [] [])).
  - exact toy_wf.
  - reflexivity.
  - right. reflexivity.
Defined.

(** ** Exceptions of get_by_mapping *)

Lemma shared_loop_raise (m : model) (fuel : nat) rest sh (e : exn) :
  sh <> [] ->
  shared_loop fuel (__init__ m) rest sh = Raise e -> e = RecursionError.
Proof.
  revert sh. induction rest as [|x rest IH]; intros sh Hne; simpl.
  - destruct sh; [congruence | discriminate].
  - destruct (ancestors fuel (__init__ m) (VStr x)) as [a|e'] eqn:Ea; simpl.
    + destruct (filter _ sh) as [|y sh'] eqn:Ef; [discriminate|].
      apply IH. discriminate.
    + intros [= <-]. eapply ancestors_init_raise; eauto.
Qed.

(** On an identifier given as a string, [get_by_mapping] raises nothing
    but [RecursionError]: the final subscript is never out of range. *)
Theorem get_by_mapping_only_recursion_error (m : model) (fuel : nat) set_order
    (u : string) (e : exn) :
  get_by_mapping fuel set_order (__init__ m) (VStr u) = Raise e ->
  e = RecursionError.
Proof.
  unfold get_by_mapping, lru_cache. simpl hashable. cbv iota.
  destruct (get_all_by_mapping_str (__init__ m) u) as [s ->].
  unfold bind at 1.
  destruct (set_order s) as [|first rest]; [discriminate|].
  destruct (ancestors fuel (__init__ m) (VStr first)) as [a|e'] eqn:Ea.
  - unfold bind at 1. intros H.
    apply (shared_loop_raise m fuel rest (first :: a) e); [discriminate|].
    exact H.
  - simpl. intros [= <-]. eapply ancestors_init_raise; eauto.
Qed.

Lemma get_by_mapping_only_recursion_error_witness :
  RecursionError = RecursionError.
Proof.
  apply (get_by_mapping_only_recursion_error cyclic 50 (fun l => l) "id:loop").
  vm_compute. reflexivity.
Defined.
